(** * design_patterns: the counting semaphore and the thread pool

    A shallow embedding of [src/tools/semaphore/semaphore.cpp] and
    [src/thread_pool/thread_pool.hpp].

    - A [size_t] is a [Z] in [0, 2^64); the wrap-around of the unsigned
      arithmetic is written out with [mod].
    - Each member function is a function on the object's state.  A critical
      section (the body executed while the mutex is held) is one atomic step.
    - A call that cannot proceed in the state it is issued in (a [wait] on a
      semaphore whose count is zero) is reported as blocked; nothing in the
      repository wakes it up unless some other caller posts.
    - [std::unordered_map] is a [gmap], [std::priority_queue] is the vector it
      adapts together with the heap algorithms it is specified by. *)

From Stdlib Require Import ZArith List Bool Lia Permutation String Sorted.
From stdpp Require Import base gmap list.

Local Open Scope Z_scope.

(** ** size_t *)

Definition SIZE_MOD : Z := 2 ^ 64.

Definition is_size_t (z : Z) : bool := (0 <=? z) && (z <? SIZE_MOD).

(** ** Semaphore (semaphore.hpp, semaphore.cpp) *)

Module Semaphore.

(** The mutex and the condition variable carry no data of their own: the
    state of a semaphore is its counter [atomic<size_t> m_count]. *)
Record t : Type := Build { m_count : Z }.

(** [Semaphore::Semaphore(size_t init_count_)] *)
Definition Semaphore (init_count_ : Z) : t := {| m_count := init_count_ |}.

(** [bool Semaphore::IsAvailable() const]: [return (m_count > 0);] *)
Definition IsAvailable (s : t) : bool := 0 <? m_count s.

(** [void Semaphore::post(size_t n)]: [m_count += n; notify_all();] *)
Definition post (n : Z) (s : t) : t :=
  {| m_count := (m_count s + n) mod SIZE_MOD |}.

(** [void Semaphore::wait()]: the condition variable lets the caller through
    only when [IsAvailable()] holds, then [--m_count].  [None]: the caller
    stays blocked in this state. *)
Definition wait (s : t) : option t :=
  if IsAvailable s
  then Some {| m_count := (m_count s - 1) mod SIZE_MOD |}
  else None.

(** [bool Semaphore::timed_wait(seconds timeout_)]: [wait_for] returns the
    value of the predicate [IsAvailable()] it last evaluated under the lock;
    [m_count -= result; return result;].  The timeout only bounds how long
    the caller sleeps beforehand, the step taken at return is this one. *)
Definition timed_wait (timeout_ : Z) (s : t) : bool * t :=
  let result := IsAvailable s in
  (result, {| m_count := (m_count s - Z.b2z result) mod SIZE_MOD |}).

(** [bool Semaphore::try_wait()]: [return timed_wait(seconds(0));] *)
Definition try_wait (s : t) : bool * t := timed_wait 0 s.

(** *** Histories of one semaphore *)

Inductive op : Type :=
| Post (n : Z)
| Wait
| TryWait
| TimedWait (timeout_ : Z).

(** The argument of [post] is a [size_t]. *)
Definition valid_op (o : op) : bool :=
  match o with
  | Post n => is_size_t n
  | _ => true
  end.

(** A semaphore together with two ghost counters: the total that was posted
    and the number of waits (of any kind) that completed successfully. *)
Record history : Type := History {
  sem : t;
  posted : Z;
  completed : Z
}.

Definition start (init_count_ : Z) : history :=
  {| sem := Semaphore init_count_; posted := 0; completed := 0 |}.

(** One call issued against the semaphore.  A [wait] that finds the count at
    zero does not complete: the history is unchanged and the sequence goes
    on with the calls of the other threads. *)
Definition step (h : history) (o : op) : history :=
  match o with
  | Post n =>
      {| sem := post n (sem h); posted := posted h + n; completed := completed h |}
  | Wait =>
      match wait (sem h) with
      | Some s' => {| sem := s'; posted := posted h; completed := completed h + 1 |}
      | None => h
      end
  | TryWait =>
      let '(b, s') := try_wait (sem h) in
      {| sem := s'; posted := posted h; completed := completed h + Z.b2z b |}
  | TimedWait d =>
      let '(b, s') := timed_wait d (sem h) in
      {| sem := s'; posted := posted h; completed := completed h + Z.b2z b |}
  end.

Definition run (ops : list op) (h : history) : history := fold_left step ops h.

(** The invariant behind the history theorem. *)
Definition balanced (init_count_ : Z) (h : history) : Prop :=
  0 <= m_count (sem h) < SIZE_MOD /\
  0 <= completed h /\
  m_count (sem h) + completed h <= init_count_ + posted h.

End Semaphore.

(** ** std::priority_queue<Callable>

    [m_calls] is a [std::priority_queue<Callable>] with the default container
    and comparison: a [std::vector<Callable>] kept as a binary max-heap with
    respect to [Callable]'s [operator<].  [push] is [push_back] followed by
    [std::push_heap], [pop] is [std::pop_heap] followed by [pop_back], [top]
    is [front].  These are library functions, not code of the repository;
    they are written out here as GNU libstdc++ implements them
    ([bits/stl_heap.h]): the new value climbs from the last position while
    its parent compares less; on removal the hole left at the root descends
    along the larger child to the bottom and the former last value climbs
    back from there. *)

Section PriorityQueue.
Local Open Scope nat_scope.
Context {Callable : Type}.
(** [comp a b] is [a < b]. *)
Variable comp : Callable -> Callable -> bool.

(** The loop of [std::push_heap]:
    [while (holeIndex > topIndex && comp(first[parent], value))
       { first[holeIndex] = first[parent]; holeIndex = parent; }
     first[holeIndex] = value;] with [parent = (holeIndex - 1) / 2]. *)
Fixpoint sift_up (fuel : nat) (first : list Callable)
    (holeIndex topIndex : nat) (value : Callable) : list Callable :=
  let parent := (holeIndex - 1) / 2 in
  match fuel with
  | S fuel' =>
      match first !! parent with
      | Some p =>
          if (topIndex <? holeIndex) && comp p value
          then sift_up fuel' (<[holeIndex := p]> first) parent topIndex value
          else <[holeIndex := value]> first
      | None => <[holeIndex := value]> first
      end
  | O => <[holeIndex := value]> first
  end.

(** [std::push_heap(first, last)]: the value at [last - 1] climbs. *)
Definition push_heap (first : list Callable) : list Callable :=
  match last first with
  | Some value => sift_up (length first) first (length first - 1) 0 value
  | None => first
  end.

(** The descending loop of [std::pop_heap]'s adjustment:
    [while (secondChild < (len - 1) / 2)
       { secondChild = 2 * (secondChild + 1);
         if (comp(first[secondChild], first[secondChild - 1])) secondChild--;
         first[holeIndex] = first[secondChild]; holeIndex = secondChild; }]
    Returns the vector and the final hole. *)
Fixpoint sift_down (fuel : nat) (first : list Callable) (holeIndex len : nat)
    : list Callable * nat :=
  match fuel with
  | S fuel' =>
      if holeIndex <? (len - 1) / 2 then
        let secondChild := 2 * (holeIndex + 1) in
        match first !! secondChild, first !! (secondChild - 1) with
        | Some r, Some l =>
            if comp r l
            then sift_down fuel' (<[holeIndex := l]> first) (secondChild - 1) len
            else sift_down fuel' (<[holeIndex := r]> first) secondChild len
        | _, _ => (first, holeIndex)
        end
      else (first, holeIndex)
  | O => (first, holeIndex)
  end.

(** The adjustment itself: descend, take the lone left child of the last
    inner node when [len] is even, then let [value] climb from the hole. *)
Definition adjust_heap (first : list Callable) (holeIndex len : nat)
    (value : Callable) : list Callable :=
  let topIndex := holeIndex in
  let '(first1, secondChild) := sift_down len first holeIndex len in
  let '(first2, holeIndex2) :=
    if Nat.even len && (secondChild =? (len - 2) / 2) then
      match first1 !! (2 * (secondChild + 1) - 1) with
      | Some c => (<[secondChild := c]> first1, 2 * (secondChild + 1) - 1)
      | None => (first1, secondChild)
      end
    else (first1, secondChild) in
  sift_up (S holeIndex2) first2 holeIndex2 topIndex value.

(** [std::pop_heap(first, last)]: nothing to do for fewer than two elements;
    otherwise the last value is saved, the root is stored in the last
    position and the first [last - first - 1] positions are adjusted. *)
Definition pop_heap (first : list Callable) : list Callable :=
  if 1 <? length first then
    let result := length first - 1 in
    match first !! result, first !! 0 with
    | Some value, Some top =>
        adjust_heap (<[result := top]> first) 0 result value
    | _, _ => first
    end
  else first.

(** [priority_queue::push]: [c.push_back(x); push_heap(c.begin(), c.end());] *)
Definition pq_push (x : Callable) (c : list Callable) : list Callable :=
  push_heap (c ++ [x]).

(** [priority_queue::top]: [c.front()]; undefined ([None]) when empty. *)
Definition pq_top (c : list Callable) : option Callable := head c.

(** [priority_queue::pop]: [pop_heap(c.begin(), c.end()); c.pop_back();]
    undefined ([None]) when empty. *)
Definition pq_pop (c : list Callable) : option (list Callable) :=
  match c with
  | [] => None
  | _ => Some (removelast (pop_heap c))
  end.

(** The heap order on the first [n] positions: no element compares greater
    than its parent. *)
Definition heap_upto (n : nat) (v : list Callable) : Prop :=
  forall i x p, 0 < i < n ->
    v !! i = Some x -> v !! ((i - 1) / 2) = Some p -> comp p x = false.

Definition is_heap (v : list Callable) : Prop := heap_upto (length v) v.

(** The state of a climb: the order holds on every edge that does not enter
    the hole, [value] is not below the children of the hole, and neither is
    the parent of the hole. *)
Definition hole_ok (n : nat) (v : list Callable) (h : nat) (value : Callable) : Prop :=
  h < n <= length v /\
  (forall i x p, 0 < i < n -> i <> h ->
     v !! i = Some x -> v !! ((i - 1) / 2) = Some p -> comp p x = false) /\
  (forall c x, 0 < c < n -> (c - 1) / 2 = h ->
     v !! c = Some x -> comp value x = false) /\
  (forall c x g, 0 < h -> 0 < c < n -> (c - 1) / 2 = h ->
     v !! c = Some x -> v !! ((h - 1) / 2) = Some g -> comp g x = false).

End PriorityQueue.

(** [Callable]'s [operator<] is required to be a strict weak ordering (the
    standard's Compare requirements): irreflexive, transitive, and with a
    transitive incomparability relation. *)
Class StrictWeakOrder {Callable : Type} (comp : Callable -> Callable -> bool) : Prop := {
  comp_irrefl : forall a, comp a a = false;
  comp_trans : forall a b c, comp a b = true -> comp b c = true -> comp a c = true;
  comp_equiv_trans : forall a b c,
    comp a b = false -> comp b a = false ->
    comp b c = false -> comp c b = false ->
    comp a c = false /\ comp c a = false
}.

(** A concrete work item: a priority and a tag that tells equal priorities
    apart.  [operator<] compares priorities only. *)
Record job : Type := Job { priority : Z; tag : nat }.

Definition job_lt (a b : job) : bool := (priority a <? priority b)%Z.

(** ** ThreadPool (thread_pool.hpp) *)

Inductive Status : Type := RUNNING | PAUSED | FINISHED.

Definition Status_eqb (a b : Status) : bool :=
  match a, b with
  | RUNNING, RUNNING | PAUSED, PAUSED | FINISHED, FINISHED => true
  | _, _ => false
  end.

(** [std::length_error] with its message. *)
Inductive exception : Type := length_error (what : string).

(** How a call of a member function ends.
    - [Returned v s]: a [return] statement produced [v].
    - [NoReturn s]: control reached the closing brace of a function declared
      to return a value without executing a [return]; no value is produced.
    - [Thrown e s]: an exception left the function.
    - [Blocked s]: the caller is suspended in a semaphore [wait] in state [s].
    - [Undefined]: a library precondition was violated. *)
Inductive outcome (St A : Type) : Type :=
| Returned (v : A) (s : St)
| NoReturn (s : St)
| Thrown (e : exception) (s : St)
| Blocked (s : St)
| Undefined.

Arguments Returned {St A} v s.
Arguments NoReturn {St A} s.
Arguments Thrown {St A} e s.
Arguments Blocked {St A} s.
Arguments Undefined {St A}.

(** The state a call leaves the object in ([s0] when there is none). *)
Definition state_after {St A : Type} (s0 : St) (o : outcome St A) : St :=
  match o with
  | Returned _ s | NoReturn s | Thrown _ s | Blocked s => s
  | Undefined => s0
  end.

(** A nested call whose result the caller discards: the caller goes on in the
    state the callee left, unless the callee threw or blocked. *)
Definition discard {St A B : Type} (o : outcome St A) (k : St -> outcome St B)
    : outcome St B :=
  match o with
  | Returned _ s | NoReturn s => k s
  | Thrown e s => Thrown e s
  | Blocked s => Blocked s
  | Undefined => Undefined
  end.

(** How the destruction of an object ends: all members were destroyed;
    [std::terminate] was called; or the destructor never got that far. *)
Inductive destruction : Type := Destroyed | Terminated | NeverDestroyed.

(** [std::thread::id] and [std::thread]: a thread is known by its id. *)
Abbreviation thread_id := nat.
Record thread : Type := Thread { get_id : thread_id }.

(** [unordered_map::insert]: keeps the old mapping when the key is present. *)
Definition umap_insert (k : thread_id) (v : thread) (m : gmap nat thread)
    : gmap nat thread :=
  match m !! k with
  | Some _ => m
  | None => <[k := v]> m
  end.

(** A run of [n] calls of [wait] on one semaphore, as in
    [for (i = 0; i < n; ++i) sem.wait();].  The flag tells whether all of
    them completed; otherwise the semaphore is the one the caller is blocked
    on. *)
Fixpoint wait_times (n : nat) (sem : Semaphore.t) : bool * Semaphore.t :=
  match n with
  | O => (true, sem)
  | S n' =>
      match Semaphore.wait sem with
      | Some sem' => wait_times n' sem'
      | None => (false, sem)
      end
  end.

Section ThreadPool.
Context {Callable : Type}.
(** [Callable::operator<] *)
Variable comp : Callable -> Callable -> bool.
(** [static const size_t THREAD_MAX], the hardware concurrency. *)
Variable THREAD_MAX : Z.

Record ThreadPool : Type := Pool {
  m_status : Status;
  m_threads : gmap nat thread;
  m_calls : list Callable;
  m_to_remove : list thread_id;
  m_is_empty : Semaphore.t;
  m_actions : Semaphore.t;
  m_to_stop : Semaphore.t;
  m_running_threads : Semaphore.t
}.

Definition set_status (st : Status) (s : ThreadPool) : ThreadPool :=
  Pool st (m_threads s) (m_calls s) (m_to_remove s)
       (m_is_empty s) (m_actions s) (m_to_stop s) (m_running_threads s).
Definition set_threads (m : gmap nat thread) (s : ThreadPool) : ThreadPool :=
  Pool (m_status s) m (m_calls s) (m_to_remove s)
       (m_is_empty s) (m_actions s) (m_to_stop s) (m_running_threads s).
Definition set_calls (c : list Callable) (s : ThreadPool) : ThreadPool :=
  Pool (m_status s) (m_threads s) c (m_to_remove s)
       (m_is_empty s) (m_actions s) (m_to_stop s) (m_running_threads s).
Definition set_is_empty (x : Semaphore.t) (s : ThreadPool) : ThreadPool :=
  Pool (m_status s) (m_threads s) (m_calls s) (m_to_remove s)
       x (m_actions s) (m_to_stop s) (m_running_threads s).
Definition set_actions (x : Semaphore.t) (s : ThreadPool) : ThreadPool :=
  Pool (m_status s) (m_threads s) (m_calls s) (m_to_remove s)
       (m_is_empty s) x (m_to_stop s) (m_running_threads s).
Definition set_running_threads (x : Semaphore.t) (s : ThreadPool) : ThreadPool :=
  Pool (m_status s) (m_threads s) (m_calls s) (m_to_remove s)
       (m_is_empty s) (m_actions s) (m_to_stop s) x.

(** [size_t GetSize() const]: [return m_threads.size();] *)
Definition GetSize (s : ThreadPool) : Z := Z.of_nat (size (m_threads s)).

(** [void ThreadLoop()]: the body is empty; a worker does nothing. *)
Definition ThreadLoop (s : ThreadPool) : ThreadPool := s.

(** One turn of the loop of [AddThreads]:
    [thread new_thread(ThreadLoop, this);
     m_threads.insert(new_thread.get_id(), move(new_thread));]
    The new thread gets an id no thread of the map has; it runs
    [ThreadLoop], which does nothing. *)
Definition spawn (m : gmap nat thread) : gmap nat thread :=
  let new_thread := Thread (fresh (dom m)) in
  umap_insert (get_id new_thread) new_thread m.

(** [void AddThreads(size_t nthread_)] *)
Definition AddThreads (nthread_ : Z) (s : ThreadPool) : ThreadPool :=
  let s1 := set_threads (Nat.iter (Z.to_nat nthread_) spawn (m_threads s)) s in
  set_running_threads (Semaphore.post nthread_ (m_running_threads s1)) s1.

(** [void RemoveThreads(size_t nthread_)]: the body is empty. *)
Definition RemoveThreads (nthread_ : Z) (s : ThreadPool) : ThreadPool := s.

(** [ThreadPool(size_t threads_num_)]: the member initialisers, then
    [AddThreads(threads_num_)]. *)
Definition ThreadPool_ctor (threads_num_ : Z) : ThreadPool :=
  AddThreads threads_num_
    {| m_status := RUNNING;
       m_threads := ∅;
       m_calls := [];
       m_to_remove := [];
       m_is_empty := Semaphore.Semaphore 0;
       m_actions := Semaphore.Semaphore 0;
       m_to_stop := Semaphore.Semaphore 0;
       m_running_threads := Semaphore.Semaphore threads_num_ |}.

(** [bool Pause()]: the [switch] returns for [PAUSED] and [FINISHED]; for
    [RUNNING] the function waits [GetSize()] times on [m_running_threads],
    posts [GetSize()] on [m_actions] and ends without a [return]. *)
Definition Pause (s : ThreadPool) : outcome ThreadPool bool :=
  match m_status s with
  | PAUSED => Returned true s
  | FINISHED => Returned false s
  | RUNNING =>
      let '(done, sem) :=
        wait_times (Z.to_nat (GetSize s)) (m_running_threads s) in
      let s1 := set_running_threads sem s in
      if done
      then NoReturn (set_actions (Semaphore.post (GetSize s1) (m_actions s1)) s1)
      else Blocked s1
  end.

(** [bool Continue()]: the [switch] returns for [RUNNING] and [FINISHED];
    for [PAUSED] the function posts [GetSize()] on [m_running_threads] and
    ends without a [return]. *)
Definition Continue (s : ThreadPool) : outcome ThreadPool bool :=
  match m_status s with
  | RUNNING => Returned true s
  | FINISHED => Returned false s
  | PAUSED =>
      NoReturn (set_running_threads
                  (Semaphore.post (GetSize s) (m_running_threads s)) s)
  end.

(** [bool Finish(bool let_complete_)] *)
Definition Finish (let_complete_ : bool) (s : ThreadPool) : outcome ThreadPool bool :=
  if Status_eqb FINISHED (m_status s) then Returned false s
  else
    discard (Continue s) (fun s1 =>
      let finish s2 :=
        let s3 := set_status FINISHED s2 in
        Returned true (RemoveThreads (GetSize s3) s3) in
      if let_complete_ then
        match Semaphore.wait (m_is_empty s1) with
        | Some sem => finish (set_is_empty sem s1)
        | None => Blocked s1
        end
      else finish s1).

(** The members are destroyed after the body of the destructor.  Every
    [std::thread] stored in [m_threads] was started by [AddThreads] and
    nothing in the class joins or detaches one, so each of them is joinable;
    the destructor of a joinable [std::thread] calls [std::terminate].  The
    other members are destroyed without further effect. *)
Definition destroy_members (s : ThreadPool) : destruction :=
  if (size (m_threads s) =? 0)%nat then Destroyed else Terminated.

(** [~ThreadPool()]: the body [Finish(false);], then the members.  The
    destructor is [noexcept]: an exception leaving the body ends in
    [std::terminate] as well. *)
Definition ThreadPool_dtor (s : ThreadPool) : destruction :=
  match Finish false s with
  | Returned _ s' | NoReturn s' => destroy_members s'
  | Thrown _ _ => Terminated
  | Blocked _ => NeverDestroyed
  | Undefined => NeverDestroyed
  end.

(** [bool SetNumOfThreads(size_t nthread_)] *)
Definition SetNumOfThreads (nthread_ : Z) (s : ThreadPool) : outcome ThreadPool bool :=
  if Status_eqb FINISHED (m_status s) then Returned false s
  else if THREAD_MAX <? nthread_ then
    Thrown (length_error "Number of threads excide the allowed value.") s
  else if GetSize s <=? nthread_ then
    Returned true (AddThreads ((nthread_ - GetSize s) mod SIZE_MOD) s)
  else
    Returned true (RemoveThreads ((GetSize s - nthread_) mod SIZE_MOD) s).

(** [bool Push(Callable &call_)]: after the [FINISHED] test the function
    pushes under [m_calls_lock], posts on [m_actions], tries [m_is_empty]
    and ends without a [return]. *)
Definition Push (call_ : Callable) (s : ThreadPool) : outcome ThreadPool bool :=
  if Status_eqb FINISHED (m_status s) then Returned false s
  else
    let s1 := set_calls (pq_push comp call_ (m_calls s)) s in
    let s2 := set_actions (Semaphore.post 1 (m_actions s1)) s1 in
    let s3 := set_is_empty (snd (Semaphore.try_wait (m_is_empty s2))) s2 in
    NoReturn s3.

(** [Callable Pop()]: [Callable ret(move(m_calls.top())); m_calls.pop();]
    and the function ends without a [return]: [ret] is destroyed with the
    frame.  [top] and [pop] on an empty queue are undefined. *)
Definition Pop (s : ThreadPool) : outcome ThreadPool Callable :=
  match pq_top (m_calls s) with
  | None => Undefined
  | Some ret =>
      match pq_pop comp (m_calls s) with
      | None => Undefined
      | Some c => NoReturn (set_calls c s)
      end
  end.

(** The local [ret] of [Pop]: the item the call takes off the queue. *)
Definition Pop_ret (s : ThreadPool) : option Callable := pq_top (m_calls s).


(** *** Sequences of calls of the public interface *)

Inductive call : Type :=
| CPause
| CContinue
| CFinish (let_complete_ : bool)
| CSetNumOfThreads (nthread_ : Z)
| CPush (call_ : Callable).

Definition exec (c : call) (s : ThreadPool) : outcome ThreadPool bool :=
  match c with
  | CPause => Pause s
  | CContinue => Continue s
  | CFinish b => Finish b s
  | CSetNumOfThreads n => SetNumOfThreads n s
  | CPush x => Push x s
  end.

(** The pool after a sequence of calls, each issued in the state the
    previous one left (a caller that blocked or caught the exception is
    followed by the next caller). *)
Definition run_calls (cs : list call) (s : ThreadPool) : ThreadPool :=
  fold_left (fun s c => state_after s (exec c s)) cs s.

(** The items [Pop] takes off the queue when it is called as long as there
    are any (at most [fuel] times), in the order they are taken. *)
Fixpoint drain (fuel : nat) (s : ThreadPool) : list Callable :=
  match fuel with
  | O => []
  | S fuel' =>
      match Pop_ret s, Pop s with
      | Some ret, NoReturn s' => ret :: drain fuel' s'
      | _, _ => []
      end
  end.

(** The states the pool can be in: the constructor's, and those a call of
    the public interface or a completed [Pop] leads to. *)
Inductive reachable : ThreadPool -> Prop :=
| reach_ctor (threads_num_ : Z) : reachable (ThreadPool_ctor threads_num_)
| reach_call (s : ThreadPool) (c : call) :
    reachable s -> reachable (state_after s (exec c s))
| reach_Pop (s s' : ThreadPool) :
    reachable s -> Pop s = NoReturn s' -> reachable s'.

(** What no call of the public interface ever changes: the semaphore
    [m_is_empty] is created with count zero and nothing posts on it; the
    status is never set to [PAUSED]. *)
Definition never_signalled (s : ThreadPool) : Prop :=
  m_is_empty s = Semaphore.Semaphore 0 /\ m_status s <> PAUSED.

End ThreadPool.

Arguments ThreadPool : clear implicits.
Arguments call : clear implicits.
Arguments ThreadPool_ctor : clear implicits.

(** ** Example pools

    One worker on a machine with eight hardware threads. *)

Definition one_worker : ThreadPool job := ThreadPool_ctor job 1.

(** Work items of different priorities. *)
Definition mixed : ThreadPool job :=
  run_calls job_lt 8
    [CPush (Job 3 0); CPush (Job 5 1); CPush (Job 1 2); CPush (Job 5 3)]
    one_worker.

(** The pool after [Finish(false)]. *)
Definition finished_pool : ThreadPool job :=
  state_after one_worker (Finish false one_worker).

(** The order in which [items], pushed one after the other on a fresh pool,
    are taken off the queue again. *)
Definition pushed_then_drained (items : list job) : list job :=
  drain job_lt (length items) (run_calls job_lt 8 (map CPush items) one_worker).

(** First in, first out among equals: of two items of equal priority, the one
    pushed first is taken off first. *)
Definition equals_leave_in_push_order (items : list job) : Prop :=
  forall (i j : nat) (a b : job),
    (i < j)%nat -> items !! i = Some a -> items !! j = Some b ->
    priority a = priority b ->
    forall i' j' : nat,
      pushed_then_drained items !! i' = Some a ->
      pushed_then_drained items !! j' = Some b -> (i' < j')%nat.

(** ** Singleton (singleton.hpp) *)

Module Singleton.
Section Singleton.
(** The instance class [C]; [W] is whatever the constructor of [C] acts on. *)
Context {C W : Type}.
(** [C]'s constructor with no arguments. *)
Variable construct : W -> C * W.

(** [static inline C& GetInstance()]:
    [static Singleton<C> s_instance; return s_instance.m_data;]
    The function-local static is [None] until the first call initialises it
    by running [C]'s constructor; every call returns its [m_data]. *)
Definition GetInstance (st : option C * W) : C * (option C * W) :=
  match fst st with
  | Some m_data => (m_data, st)
  | None =>
      let '(m_data, w) := construct (snd st) in
      (m_data, (Some m_data, w))
  end.

(** [n] calls one after the other, with what each of them returned. *)
Fixpoint calls (n : nat) (st : option C * W) : list C * (option C * W) :=
  match n with
  | O => ([], st)
  | S n' =>
      let '(c, st1) := GetInstance st in
      let '(cs, st2) := calls n' st1 in
      (c :: cs, st2)
  end.

End Singleton.
End Singleton.

(** Linear arithmetic with halving: every quotient by two is replaced by its
    defining equation. *)
Ltac div2 :=
  repeat match goal with
  | |- context [(?a / 2)%nat] =>
      let q := fresh "q" in
      let r := fresh "r" in
      pose proof (Nat.div_mod_eq a 2);
      pose proof (Nat.mod_upper_bound a 2 ltac:(lia));
      generalize dependent (a mod 2)%nat;
      generalize dependent (a / 2)%nat; intros q r; intros
  | H : context [(?a / 2)%nat] |- _ =>
      let q := fresh "q" in
      let r := fresh "r" in
      pose proof (Nat.div_mod_eq a 2);
      pose proof (Nat.mod_upper_bound a 2 ltac:(lia));
      generalize dependent (a mod 2)%nat;
      generalize dependent (a / 2)%nat; intros q r; intros
  end;
  lia.

(** * Proofs *)

(** ** size_t *)

Lemma is_size_t_spec z : is_size_t z = true <-> 0 <= z < SIZE_MOD.
Proof. unfold is_size_t. rewrite andb_true_iff, Z.leb_le, Z.ltb_lt. tauto. Qed.

Lemma SIZE_MOD_pos : 0 < SIZE_MOD.
Proof. reflexivity. Qed.

(** ** Semaphore: proofs *)

Section SemaphoreFacts.
Import Semaphore.

Lemma timed_wait_available d s :
  0 < m_count s < SIZE_MOD ->
  timed_wait d s = (true, {| m_count := m_count s - 1 |}).
Proof.
  intros Hc. unfold timed_wait, IsAvailable.
  destruct (Z.ltb_spec 0 (m_count s)) as [_|]; [|lia].
  simpl. rewrite Z.mod_small by lia. reflexivity.
Qed.

Lemma timed_wait_unavailable d s :
  m_count s = 0 -> timed_wait d s = (false, s).
Proof.
  intros Hc. unfold timed_wait, IsAvailable. destruct s as [c]. simpl in *.
  subst c. reflexivity.
Qed.

Lemma timed_wait_false_inv d s s' :
  0 <= m_count s < SIZE_MOD -> timed_wait d s = (false, s') -> s' = s.
Proof.
  intros Hc. unfold timed_wait, IsAvailable.
  destruct (Z.ltb_spec 0 (m_count s)) as [|Hle]; [discriminate|].
  intros [= <-]. destruct s as [c]. simpl in *. f_equal.
  rewrite Z.sub_0_r. apply Z.mod_small. lia.
Qed.

Lemma wait_Some s s' :
  0 <= m_count s < SIZE_MOD ->
  wait s = Some s' -> 0 < m_count s /\ m_count s' = m_count s - 1.
Proof.
  intros Hc. unfold wait, IsAvailable.
  destruct (Z.ltb_spec 0 (m_count s)); [|discriminate].
  intros [= <-]. simpl. rewrite Z.mod_small by lia. lia.
Qed.

Lemma post_count n s :
  0 <= m_count s -> 0 <= n ->
  0 <= m_count (post n s) < SIZE_MOD /\ m_count (post n s) <= m_count s + n.
Proof.
  intros Hc Hn. unfold post. simpl.
  pose proof (Z.mod_pos_bound (m_count s + n) SIZE_MOD SIZE_MOD_pos).
  pose proof (Z.mod_le (m_count s + n) SIZE_MOD ltac:(lia) SIZE_MOD_pos).
  lia.
Qed.

Lemma step_balanced init h o :
  valid_op o = true -> balanced init h -> balanced init (step h o).
Proof.
  intros Hv (Hc & Hw & Hb). destruct o as [n| | |d]; unfold step.
  - apply is_size_t_spec in Hv.
    destruct (post_count n (sem h)) as [? ?]; [lia..|].
    unfold balanced; simpl in *. lia.
  - destruct (wait (sem h)) as [s'|] eqn:E.
    + apply wait_Some in E as [? ?]; [|lia].
      unfold balanced; simpl. lia.
    + unfold balanced. auto.
  - unfold try_wait.
    destruct (Z.eq_dec (m_count (sem h)) 0) as [Hz|Hnz].
    + rewrite (timed_wait_unavailable _ _ Hz). unfold balanced; simpl. lia.
    + rewrite timed_wait_available by lia. unfold balanced; simpl. lia.
  - destruct (Z.eq_dec (m_count (sem h)) 0) as [Hz|Hnz].
    + rewrite (timed_wait_unavailable _ _ Hz). unfold balanced; simpl. lia.
    + rewrite timed_wait_available by lia. unfold balanced; simpl. lia.
Qed.

Lemma run_balanced init ops h :
  forallb valid_op ops = true -> balanced init h -> balanced init (run ops h).
Proof.
  revert h. induction ops as [|o ops IH]; intros h Hv Hb; simpl; [exact Hb|].
  simpl in Hv. apply andb_true_iff in Hv as [Ho Hops].
  apply IH; [exact Hops|]. apply step_balanced; assumption.
Qed.

Lemma start_balanced init : is_size_t init = true -> balanced init (start init).
Proof.
  intros Hi. apply is_size_t_spec in Hi. unfold balanced, start, Semaphore; simpl. lia.
Qed.

End SemaphoreFacts.

(** ** The priority queue keeps the heap order *)

Section HeapFacts.
Local Open Scope nat_scope.
Context {Callable : Type} (comp : Callable -> Callable -> bool).
Context `{!StrictWeakOrder comp}.

Lemma comp_asym a b : comp a b = true -> comp b a = false.
Proof.
  intros Hab. destruct (comp b a) eqn:Hba; [|reflexivity].
  rewrite <- (comp_irrefl a). symmetry. eapply comp_trans; eassumption.
Qed.

(** "Not less" is transitive. *)
Lemma comp_false_trans a b c :
  comp a b = false -> comp b c = false -> comp a c = false.
Proof.
  intros Hab Hbc. destruct (comp a c) eqn:Hac; [|reflexivity].
  destruct (comp b a) eqn:Hba.
  { rewrite (comp_trans _ _ _ Hba Hac) in Hbc. discriminate. }
  destruct (comp c b) eqn:Hcb.
  { rewrite (comp_trans _ _ _ Hac Hcb) in Hab. discriminate. }
  destruct (comp_equiv_trans a b c Hab Hba Hbc Hcb) as [Hac' _]. congruence.
Qed.

Lemma length_sift_up fuel v h top value :
  length (sift_up comp fuel v h top value) = length v.
Proof.
  revert v h. induction fuel as [|fuel IH]; intros v h; cbn [sift_up].
  - apply length_insert.
  - destruct (v !! ((h - 1) / 2)) as [p|]; [|apply length_insert].
    destruct ((top <? h) && comp p value).
    + rewrite IH. apply length_insert.
    + apply length_insert.
Qed.

Lemma store_heap n v h value :
  hole_ok comp n v h value ->
  (forall p, 0 < h -> v !! ((h - 1) / 2) = Some p -> comp p value = false) ->
  heap_upto comp n (<[h := value]> v).
Proof.
  intros (Hr & Ha & Hb & Hc) Hp i x q Hi Hx Hq.
  destruct (decide (i = h)) as [->|Hne].
  - rewrite list_lookup_insert_eq in Hx by lia. injection Hx as <-.
    rewrite list_lookup_insert_ne in Hq by div2.
    apply Hp; [lia|exact Hq].
  - rewrite list_lookup_insert_ne in Hx by lia.
    destruct (decide ((i - 1) / 2 = h)) as [Hpar|Hpar].
    + rewrite Hpar, list_lookup_insert_eq in Hq by lia. injection Hq as <-.
      eapply Hb; eauto.
    + rewrite list_lookup_insert_ne in Hq by lia. eapply Ha; eauto.
Qed.

Lemma sift_up_heap fuel n v h value :
  h <= fuel -> hole_ok comp n v h value ->
  heap_upto comp n (sift_up comp fuel v h 0 value).
Proof.
  revert v h. induction fuel as [|fuel IH]; intros v h Hf Hok; cbn [sift_up].
  - apply store_heap; [exact Hok|]. intros p Hh. lia.
  - pose proof Hok as (Hr & Ha & Hb & Hc).
    destruct (v !! ((h - 1) / 2)) as [p|] eqn:Ep.
    2:{ apply lookup_ge_None_1 in Ep. exfalso. clear - Ep Hr. div2. }
    destruct ((0 <? h) && comp p value) eqn:Econd.
    + apply andb_true_iff in Econd as [Hh Hlt]. apply Nat.ltb_lt in Hh.
      apply IH; [clear - Hf Hh; div2|].
      assert (Hph : (h - 1) / 2 < h) by (clear - Hh; div2).
      split; [rewrite length_insert; lia|]. split; [|split].
      * intros i x q Hi Hne Hx Hq.
        destruct (decide (i = h)) as [->|Hih].
        -- rewrite list_lookup_insert_eq in Hx by lia. injection Hx as <-.
           rewrite list_lookup_insert_ne in Hq by lia.
           rewrite Ep in Hq. injection Hq as <-. apply comp_irrefl.
        -- rewrite list_lookup_insert_ne in Hx by lia.
           destruct (decide ((i - 1) / 2 = h)) as [Hpar|Hpar].
           ++ rewrite Hpar, list_lookup_insert_eq in Hq by lia. injection Hq as <-.
              eapply (Hc i x p); eauto.
           ++ rewrite list_lookup_insert_ne in Hq by lia. eapply Ha; eauto.
      * intros c x Hc0 Hpar Hx.
        destruct (decide (c = h)) as [->|Hch].
        -- rewrite list_lookup_insert_eq in Hx by lia. injection Hx as <-.
           apply comp_asym. exact Hlt.
        -- rewrite list_lookup_insert_ne in Hx by lia.
           apply comp_false_trans with p; [apply comp_asym; exact Hlt|].
           eapply (Ha c x p); eauto. rewrite Hpar. exact Ep.
      * intros c x g Hp0 Hc0 Hpar Hx Hg.
        rewrite list_lookup_insert_ne in Hg by (clear - Hph Hp0; div2).
        assert (Hgp : comp g p = false).
        { eapply (Ha ((h - 1) / 2) p g); eauto; lia. }
        destruct (decide (c = h)) as [->|Hch].
        -- rewrite list_lookup_insert_eq in Hx by lia. injection Hx as <-.
           exact Hgp.
        -- rewrite list_lookup_insert_ne in Hx by lia.
           apply comp_false_trans with p; [exact Hgp|].
           eapply (Ha c x p); eauto. rewrite Hpar. exact Ep.
    + apply store_heap; [exact Hok|]. intros p' Hh Hp'.
      rewrite Ep in Hp'. injection Hp' as <-.
      apply andb_false_iff in Econd as [Hz|Hz]; [|exact Hz].
      apply Nat.ltb_ge in Hz. lia.
Qed.

Lemma sift_down_heap fuel n v h :
  heap_upto comp n v -> n <= length v -> h < n -> n <= fuel + h ->
  heap_upto comp n (sift_down comp fuel v h n).1 /\
  length (sift_down comp fuel v h n).1 = length v /\
  (n - 1) / 2 <= (sift_down comp fuel v h n).2 < n.
Proof.
  revert v h. induction fuel as [|fuel IH]; intros v h Hheap Hn Hh Hf;
    cbn [sift_down].
  - lia.
  - destruct (h <? (n - 1) / 2) eqn:Eh.
    2:{ apply Nat.ltb_ge in Eh. simpl. auto. }
    apply Nat.ltb_lt in Eh.
    assert (Hsc : 2 * (h + 1) < n) by (clear - Eh; div2).
    destruct (lookup_lt_is_Some_2 v (2 * (h + 1)) ltac:(lia)) as [r Er].
    destruct (lookup_lt_is_Some_2 v (2 * (h + 1) - 1) ltac:(lia)) as [l El].
    destruct (lookup_lt_is_Some_2 v h ltac:(lia)) as [y Ey].
    rewrite Er, El.
    assert (Hyl : comp y l = false).
    { apply (Hheap (2 * (h + 1) - 1) l y); [lia|exact El|].
      replace ((2 * (h + 1) - 1 - 1) / 2) with h by div2. exact Ey. }
    assert (Hyr : comp y r = false).
    { apply (Hheap (2 * (h + 1)) r y); [lia|exact Er|].
      replace ((2 * (h + 1) - 1) / 2) with h by div2. exact Ey. }
    assert (Hstep : forall z, comp y z = false ->
              comp z l = false -> comp z r = false ->
              heap_upto comp n (<[h := z]> v)).
    { intros z Hyz Hzl Hzr i x q Hi Hx Hq.
      destruct (decide (i = h)) as [->|Hih].
      - rewrite list_lookup_insert_eq in Hx by lia. injection Hx as <-.
        rewrite list_lookup_insert_ne in Hq by div2.
        apply comp_false_trans with y; [|exact Hyz].
        eapply Hheap; eauto.
      - rewrite list_lookup_insert_ne in Hx by lia.
        destruct (decide ((i - 1) / 2 = h)) as [Hpar|Hpar].
        + rewrite Hpar, list_lookup_insert_eq in Hq by lia. injection Hq as <-.
          assert (Hcase : i = 2 * (h + 1) - 1 \/ i = 2 * (h + 1))
            by (clear - Hpar Hi; div2).
          destruct Hcase as [->| ->]; congruence.
        + rewrite list_lookup_insert_ne in Hq by lia. eapply Hheap; eauto. }
    destruct (comp r l) eqn:Erl.
    + destruct (IH (<[h := l]> v) (2 * (h + 1) - 1)) as (H1 & H2 & H3).
      * apply Hstep; [exact Hyl|apply comp_irrefl|apply comp_asym; exact Erl].
      * rewrite length_insert. exact Hn.
      * lia.
      * lia.
      * rewrite length_insert in H2. auto.
    + destruct (IH (<[h := r]> v) (2 * (h + 1))) as (H1 & H2 & H3).
      * apply Hstep; [exact Hyr|exact Erl|apply comp_irrefl].
      * rewrite length_insert. exact Hn.
      * lia.
      * lia.
      * rewrite length_insert in H2. auto.
Qed.

(** A hole at the bottom: nothing below it to compare with. *)
Lemma leaf_hole_ok n v h value :
  (forall i x p, 0 < i < n -> i <> h ->
     v !! i = Some x -> v !! ((i - 1) / 2) = Some p -> comp p x = false) ->
  h < n <= length v -> n <= 2 * h + 1 ->
  hole_ok comp n v h value.
Proof.
  intros Hheap Hr Hleaf. split; [exact Hr|]. split; [|split].
  - exact Hheap.
  - intros c x Hc Hpar. exfalso. clear - Hc Hpar Hleaf. div2.
  - intros c x g _ Hc Hpar. exfalso. clear - Hc Hpar Hleaf. div2.
Qed.

Lemma adjust_heap_heap n v value :
  heap_upto comp n v -> 0 < n <= length v ->
  heap_upto comp n (adjust_heap comp v 0 n value) /\
  length (adjust_heap comp v 0 n value) = length v.
Proof.
  intros Hheap Hn. unfold adjust_heap.
  destruct (sift_down_heap n n v 0 Hheap ltac:(lia) ltac:(lia) ltac:(lia))
    as (Hw & Hlen & Hh).
  destruct (sift_down comp n v 0 n) as [w h]. cbn [fst snd] in Hw, Hlen, Hh.
  destruct (Nat.even n && (h =? (n - 2) / 2)) eqn:Ecase.
  - apply andb_true_iff in Ecase as [Hev Heq].
    apply Nat.eqb_eq in Heq. apply Nat.even_spec in Hev as [k Hk].
    assert (Hc : 2 * (h + 1) - 1 = n - 1) by (clear - Heq Hk Hn; div2).
    destruct (lookup_lt_is_Some_2 w (2 * (h + 1) - 1) ltac:(lia)) as [c Ec].
    destruct (lookup_lt_is_Some_2 w h ltac:(lia)) as [y Ey].
    rewrite Ec. split; [|rewrite length_sift_up, length_insert; exact Hlen].
    apply sift_up_heap; [lia|]. rewrite Hc in *.
    assert (Hhn : h < n - 1) by (clear - Heq Hk Hn; div2).
    apply leaf_hole_ok; [|rewrite length_insert; lia|lia].
    intros i x q Hi _ Hx Hq.
    assert (Hyc : comp y c = false).
    { apply (Hw (n - 1) c y); [lia|exact Ec|].
      replace ((n - 1 - 1) / 2) with h by (clear - Heq Hk Hn; div2). exact Ey. }
    destruct (decide (i = h)) as [->|Hih].
    + rewrite list_lookup_insert_eq in Hx by lia. injection Hx as <-.
      rewrite list_lookup_insert_ne in Hq by div2.
      apply comp_false_trans with y; [|exact Hyc]. eapply Hw; eauto.
    + rewrite list_lookup_insert_ne in Hx by lia.
      destruct (decide ((i - 1) / 2 = h)) as [Hpar|Hpar].
      * rewrite Hpar, list_lookup_insert_eq in Hq by lia. injection Hq as <-.
        assert (i = n - 1) by (clear - Hpar Hi Heq Hk Hn; div2). subst i.
        rewrite Ec in Hx. injection Hx as <-. apply comp_irrefl.
      * rewrite list_lookup_insert_ne in Hq by lia. eapply Hw; eauto.
  - split; [|rewrite length_sift_up; exact Hlen].
    apply sift_up_heap; [lia|].
    apply leaf_hole_ok; [intros i x q Hi _; apply Hw; exact Hi|lia|].
    apply andb_false_iff in Ecase as [Hodd|Hne].
    + assert (Hodd' : Nat.odd n = true) by (rewrite <- Nat.negb_even, Hodd; reflexivity).
      apply Nat.odd_spec in Hodd' as [k Hk]. clear - Hh Hk. div2.
    + apply Nat.eqb_neq in Hne. clear - Hh Hne. div2.
Qed.

End HeapFacts.

(** ** The priority queue keeps its contents *)

Section HeapContents.
Local Open Scope nat_scope.
Context {Callable : Type} (comp : Callable -> Callable -> bool).

Lemma delete_insert_same (v : list Callable) i b :
  delete i (<[i := b]> v) = delete i v.
Proof.
  revert i. induction v as [|a v IH]; intros [|i]; simpl; try reflexivity.
  f_equal. apply IH.
Qed.

Lemma insert_Permutation (v : list Callable) i b :
  i < length v -> <[i := b]> v ≡ₚ b :: delete i v.
Proof.
  intros Hi. rewrite <- (delete_insert_same v i b).
  apply delete_Permutation. apply list_lookup_insert_eq. exact Hi.
Qed.

(** Moving [a] from position [i] into the hole [j] and filling [i] instead
    is the same, up to order, as filling [j]. *)
Lemma move_hole (v : list Callable) i j a b :
  i <> j -> j < length v -> v !! i = Some a ->
  <[i := b]> (<[j := a]> v) ≡ₚ <[j := b]> v.
Proof.
  intros Hne Hj Hi. pose proof (lookup_lt_Some _ _ _ Hi) as Hil.
  rewrite insert_Permutation by (rewrite length_insert; exact Hil).
  rewrite (insert_Permutation v j b) by exact Hj.
  apply Permutation_cons; [reflexivity|].
  apply (Permutation_cons_inv (a := a)).
  rewrite <- delete_Permutation
    by (rewrite list_lookup_insert_ne by lia; exact Hi).
  rewrite <- (delete_insert_same v j a).
  apply delete_Permutation. apply list_lookup_insert_eq. exact Hj.
Qed.

Lemma sift_up_Permutation fuel (v : list Callable) h top value :
  h < length v -> sift_up comp fuel v h top value ≡ₚ <[h := value]> v.
Proof.
  revert v h. induction fuel as [|fuel IH]; intros v h Hh; cbn [sift_up].
  - reflexivity.
  - destruct (v !! ((h - 1) / 2)) as [p|] eqn:Ep; [|reflexivity].
    destruct ((top <? h) && comp p value) eqn:Econd; [|reflexivity].
    apply andb_true_iff in Econd as [Hlt _]. apply Nat.ltb_lt in Hlt.
    assert (Hph : (h - 1) / 2 < h) by (clear - Hlt; div2).
    rewrite IH by (rewrite length_insert; lia).
    apply move_hole; [lia|exact Hh|exact Ep].
Qed.

Lemma sift_up_frame fuel (v : list Callable) h top value j :
  h < j -> sift_up comp fuel v h top value !! j = v !! j.
Proof.
  revert v h. induction fuel as [|fuel IH]; intros v h Hj; cbn [sift_up].
  - apply list_lookup_insert_ne. lia.
  - destruct (v !! ((h - 1) / 2)) as [p|] eqn:Ep;
      [|apply list_lookup_insert_ne; lia].
    destruct ((top <? h) && comp p value);
      [|apply list_lookup_insert_ne; lia].
    rewrite IH by (clear - Hj; div2). apply list_lookup_insert_ne. lia.
Qed.

Lemma sift_down_contents fuel (v : list Callable) h n :
  h < n <= length v ->
  (sift_down comp fuel v h n).2 < n /\
  length (sift_down comp fuel v h n).1 = length v /\
  (forall j, n <= j -> (sift_down comp fuel v h n).1 !! j = v !! j) /\
  (forall X, <[(sift_down comp fuel v h n).2 := X]> (sift_down comp fuel v h n).1
             ≡ₚ <[h := X]> v).
Proof.
  revert v h. induction fuel as [|fuel IH]; intros v h Hh; cbn [sift_down].
  - simpl. repeat split; auto; lia.
  - destruct (h <? (n - 1) / 2) eqn:Eh.
    2:{ simpl. repeat split; auto; lia. }
    apply Nat.ltb_lt in Eh.
    assert (Hsc : 2 * (h + 1) < n) by (clear - Eh; div2).
    destruct (lookup_lt_is_Some_2 v (2 * (h + 1)) ltac:(lia)) as [r Er].
    destruct (lookup_lt_is_Some_2 v (2 * (h + 1) - 1) ltac:(lia)) as [l El].
    rewrite Er, El.
    destruct (comp r l).
    + destruct (IH (<[h := l]> v) (2 * (h + 1) - 1)) as (H1 & H2 & H3 & H4).
      { rewrite length_insert. lia. }
      rewrite length_insert in H2. repeat split; auto.
      * intros j Hj. rewrite H3 by exact Hj. apply list_lookup_insert_ne. lia.
      * intros X. rewrite H4. apply move_hole; [lia|lia|exact El].
    + destruct (IH (<[h := r]> v) (2 * (h + 1))) as (H1 & H2 & H3 & H4).
      { rewrite length_insert. lia. }
      rewrite length_insert in H2. repeat split; auto.
      * intros j Hj. rewrite H3 by exact Hj. apply list_lookup_insert_ne. lia.
      * intros X. rewrite H4. apply move_hole; [lia|lia|exact Er].
Qed.

Lemma adjust_heap_contents (v : list Callable) n value :
  0 < n <= length v ->
  adjust_heap comp v 0 n value ≡ₚ <[0 := value]> v /\
  (forall j, n <= j -> adjust_heap comp v 0 n value !! j = v !! j).
Proof.
  intros Hn. unfold adjust_heap.
  destruct (sift_down_contents n v 0 n ltac:(lia)) as (Hh & Hlen & Hfr & Hperm).
  destruct (sift_down comp n v 0 n) as [w h]. cbn [fst snd] in *.
  destruct (Nat.even n && (h =? (n - 2) / 2)) eqn:Ecase.
  - apply andb_true_iff in Ecase as [Hev Heq].
    apply Nat.eqb_eq in Heq. apply Nat.even_spec in Hev as [k Hk].
    assert (Hc : 2 * (h + 1) - 1 = n - 1) by (clear - Heq Hk Hn; div2).
    assert (Hhn : h < n - 1) by (clear - Heq Hk Hn; div2).
    destruct (lookup_lt_is_Some_2 w (2 * (h + 1) - 1) ltac:(lia)) as [c Ec].
    rewrite Ec, Hc in *. split.
    + rewrite sift_up_Permutation by (rewrite length_insert; lia).
      rewrite <- Hperm. apply move_hole; [lia|lia|exact Ec].
    + intros j Hj. rewrite sift_up_frame by lia.
      rewrite list_lookup_insert_ne by lia. apply Hfr. exact Hj.
  - split.
    + rewrite sift_up_Permutation by lia. apply Hperm.
    + intros j Hj. rewrite sift_up_frame by lia. apply Hfr. exact Hj.
Qed.

Lemma pq_push_Permutation x (c : list Callable) : pq_push comp x c ≡ₚ x :: c.
Proof.
  unfold pq_push, push_heap. rewrite last_snoc.
  rewrite sift_up_Permutation by (rewrite length_app; simpl; lia).
  rewrite list_insert_id.
  - symmetry. apply Permutation_cons_append.
  - rewrite length_app. simpl.
    replace (length c + 1 - 1) with (length c + 0) by lia.
    rewrite lookup_app_r by lia. replace (length c + 0 - length c) with 0 by lia.
    reflexivity.
Qed.

Lemma pop_heap_split (c : list Callable) top :
  pq_top c = Some top ->
  pop_heap comp c = removelast (pop_heap comp c) ++ [top] /\
  c ≡ₚ top :: removelast (pop_heap comp c).
Proof.
  intros Htop. unfold pq_top in Htop. rewrite head_lookup in Htop.
  pose proof (lookup_lt_Some _ _ _ Htop) as Hlen.
  assert (Hsplit : forall w, length w = length c ->
            w !! (length c - 1) = Some top ->
            w = removelast w ++ [top]).
  { intros w Hw Hl. rewrite removelast_firstn_len.
    rewrite <- (take_drop_middle w (length c - 1) top Hl) at 1.
    replace (Init.Nat.pred (length w)) with (length c - 1) by lia.
    rewrite drop_ge by lia. reflexivity. }
  unfold pop_heap. destruct (1 <? length c) eqn:E1.
  - apply Nat.ltb_lt in E1.
    destruct (lookup_lt_is_Some_2 c (length c - 1) ltac:(lia)) as [value Ev].
    rewrite Ev, Htop.
    destruct (adjust_heap_contents (<[length c - 1 := top]> c) (length c - 1) value)
      as [Hperm Hfr]; [rewrite length_insert; lia|].
    assert (Hw : adjust_heap comp (<[length c - 1 := top]> c) 0 (length c - 1) value
                 = removelast (adjust_heap comp (<[length c - 1 := top]> c) 0
                                 (length c - 1) value) ++ [top]).
    { apply Hsplit.
      - rewrite (Permutation_length Hperm), !length_insert. reflexivity.
      - rewrite Hfr by lia. apply list_lookup_insert_eq. lia. }
    split; [exact Hw|].
    rewrite Permutation_cons_append, <- Hw, Hperm.
    rewrite move_hole by (try exact Htop; lia).
    rewrite list_insert_id by exact Ev. reflexivity.
  - apply Nat.ltb_ge in E1.
    assert (Hw : c = removelast c ++ [top]).
    { apply Hsplit; [reflexivity|]. replace (length c - 1) with 0 by lia. exact Htop. }
    split; [exact Hw|]. rewrite Permutation_cons_append, <- Hw. reflexivity.
Qed.

End HeapContents.

Section HeapOrder.
Local Open Scope nat_scope.
Context {Callable : Type} (comp : Callable -> Callable -> bool).
Context `{!StrictWeakOrder comp}.

Lemma is_heap_nil : is_heap comp [].
Proof. intros i x p Hi. simpl in Hi. lia. Qed.

Lemma pq_push_heap x c : is_heap comp c -> is_heap comp (pq_push comp x c).
Proof.
  intros Hc. unfold is_heap, pq_push, push_heap. rewrite last_snoc.
  rewrite length_sift_up. apply sift_up_heap; [exact _|lia|].
  rewrite length_app. simpl.
  apply leaf_hole_ok; [|rewrite length_app; simpl; lia|lia].
  intros i y p Hi Hne Hy Hp.
  rewrite lookup_app_l in Hy by lia.
  rewrite lookup_app_l in Hp by (clear - Hi Hne; div2).
  apply (Hc i y p); [lia|exact Hy|exact Hp].
Qed.

Lemma pq_pop_heap c c' :
  is_heap comp c -> pq_pop comp c = Some c' -> is_heap comp c'.
Proof.
  intros Hc Hpop. unfold pq_pop in Hpop.
  destruct c as [|top c0] eqn:Ec; [discriminate|]. rewrite <- Ec in *.
  injection Hpop as <-.
  assert (Htop : pq_top c = Some top) by (rewrite Ec; reflexivity).
  unfold pq_top in Htop. rewrite head_lookup in Htop.
  assert (Hlen : 0 < length c) by (rewrite Ec; simpl; lia).
  clear Ec c0. unfold pop_heap.
  destruct (1 <? length c) eqn:E1.
  - apply Nat.ltb_lt in E1.
    destruct (lookup_lt_is_Some_2 c (length c - 1) ltac:(lia)) as [value Ev].
    rewrite Ev, Htop.
    destruct (adjust_heap_heap comp (length c - 1) (<[length c - 1 := top]> c) value)
      as [Hw Hl].
    + intros i x p Hi Hx Hp.
      rewrite list_lookup_insert_ne in Hx by lia.
      rewrite list_lookup_insert_ne in Hp by (clear - Hi; div2).
      apply (Hc i x p); [lia|exact Hx|exact Hp].
    + rewrite length_insert. lia.
    + rewrite length_insert in Hl. rewrite removelast_firstn_len, Hl.
      replace (Init.Nat.pred (length c)) with (length c - 1) by lia.
      unfold is_heap. rewrite length_take_le by lia.
      intros i x p Hi Hx Hp.
      rewrite lookup_take_lt in Hx by lia.
      rewrite lookup_take_lt in Hp by (clear - Hi; div2).
      eapply Hw; eauto.
  - apply Nat.ltb_ge in E1. rewrite removelast_firstn_len.
    replace (Init.Nat.pred (length c)) with 0 by lia. simpl. apply is_heap_nil.
Qed.

(** In a heap nothing compares greater than the root. *)
Lemma heap_top_max v t :
  is_heap comp v -> v !! 0 = Some t ->
  forall x, x ∈ v -> comp t x = false.
Proof.
  intros Hv Ht x Hx. apply list_elem_of_lookup_1 in Hx as [i Hi].
  revert x Hi. induction (lt_wf i) as [i _ IH]. intros x Hi.
  destruct (decide (i = 0)) as [->|Hne].
  - rewrite Ht in Hi. injection Hi as <-. apply comp_irrefl.
  - pose proof (lookup_lt_Some _ _ _ Hi) as Hl.
    destruct (lookup_lt_is_Some_2 v ((i - 1) / 2) ltac:(clear - Hl; div2)) as [p Hp].
    apply comp_false_trans with p; [exact _| |].
    + apply (IH ((i - 1) / 2)); [clear - Hne; div2|exact Hp].
    + eapply Hv; eauto. lia.
Qed.

End HeapOrder.

(** ** The thread pool: bookkeeping lemmas *)

Section PoolFacts.
Context {Callable : Type} (comp : Callable -> Callable -> bool) (THREAD_MAX : Z).

Local Abbreviation pool := (ThreadPool Callable).

Lemma size_spawn (m : gmap nat thread) : size (spawn m) = S (size m).
Proof.
  unfold spawn, umap_insert. cbn [get_id].
  assert (Hfresh : m !! fresh (dom m) = None).
  { apply not_elem_of_dom. apply is_fresh. }
  rewrite Hfresh. apply map_size_insert_None. exact Hfresh.
Qed.

Lemma size_iter_spawn n (m : gmap nat thread) :
  size (Nat.iter n spawn m) = (n + size m)%nat.
Proof.
  induction n as [|n IH]; simpl; [reflexivity|]. rewrite size_spawn, IH. reflexivity.
Qed.

Lemma GetSize_AddThreads n (s : pool) :
  0 <= n -> GetSize (AddThreads n s) = GetSize s + n.
Proof.
  intros Hn. unfold GetSize, AddThreads. simpl. rewrite size_iter_spawn. lia.
Qed.

Lemma permits_AddThreads n (s : pool) :
  Semaphore.m_count (m_running_threads (AddThreads n s))
  = (Semaphore.m_count (m_running_threads s) + n) mod SIZE_MOD.
Proof. reflexivity. Qed.

Lemma GetSize_ctor n : 0 <= n -> GetSize (ThreadPool_ctor Callable n) = n.
Proof.
  intros Hn. unfold ThreadPool_ctor. rewrite GetSize_AddThreads by exact Hn.
  reflexivity.
Qed.

Lemma GetSize_nonneg (s : pool) : 0 <= GetSize s.
Proof. unfold GetSize. lia. Qed.

Lemma never_signalled_ctor n : never_signalled (ThreadPool_ctor Callable n).
Proof. split; [reflexivity|discriminate]. Qed.

Lemma Finish_true_blocked (s : pool) :
  never_signalled s ->
  Finish true s = (if Status_eqb FINISHED (m_status s) then Returned false s else Blocked s).
Proof.
  intros [He Hst]. unfold Finish, Continue.
  destruct (m_status s); simpl; try congruence.
  rewrite He. reflexivity.
Qed.

Lemma never_signalled_exec c (s : pool) :
  never_signalled s -> never_signalled (state_after s (exec comp THREAD_MAX c s)).
Proof.
  intros Hs. pose proof Hs as [He Hst]. destruct c as [| |b|n|x]; simpl.
  - unfold Pause. destruct (m_status s) eqn:E; simpl; try exact Hs.
    destruct (wait_times _ _) as [[|] sem]; simpl;
      (split; simpl; [exact He|congruence]).
  - unfold Continue. destruct (m_status s) eqn:E; exact Hs.
  - destruct b.
    + rewrite Finish_true_blocked by exact Hs.
      destruct (Status_eqb FINISHED (m_status s)); exact Hs.
    + unfold Finish, Continue. destruct (m_status s) eqn:E; simpl; try exact Hs.
      * split; simpl; [exact He|discriminate].
      * congruence.
  - unfold SetNumOfThreads.
    destruct (Status_eqb FINISHED (m_status s)); [exact Hs|].
    destruct (THREAD_MAX <? n); [exact Hs|].
    destruct (GetSize s <=? n); exact Hs.
  - unfold Push.
    destruct (Status_eqb FINISHED (m_status s)); [exact Hs|]. simpl.
    split; simpl; [|exact Hst]. rewrite He. reflexivity.
Qed.

Lemma never_signalled_run cs (s : pool) :
  never_signalled s -> never_signalled (run_calls comp THREAD_MAX cs s).
Proof.
  revert s. induction cs as [|c cs IH]; intros s Hs; simpl; [exact Hs|].
  apply IH. apply never_signalled_exec. exact Hs.
Qed.

Lemma GetSize_Finish b (s : pool) :
  GetSize (state_after s (Finish b s)) = GetSize s.
Proof.
  unfold Finish, Continue.
  destruct (m_status s); simpl; try reflexivity;
    destruct b; simpl; try reflexivity;
    destruct (Semaphore.wait _); reflexivity.
Qed.

Lemma FINISHED_exec c (s : pool) :
  m_status s = FINISHED -> exec comp THREAD_MAX c s = Returned false s.
Proof.
  intros Hs. destruct c; simpl;
    unfold Pause, Continue, Finish, SetNumOfThreads, Push; rewrite Hs; reflexivity.
Qed.

Lemma FINISHED_run cs (s : pool) :
  m_status s = FINISHED -> run_calls comp THREAD_MAX cs s = s.
Proof.
  intros Hs. induction cs as [|c cs IH]; simpl; [reflexivity|].
  rewrite FINISHED_exec by exact Hs. simpl. exact IH.
Qed.

End PoolFacts.

(** ** The semaphore: what the specification states *)

Section SemaphoreClaims.
Import Semaphore.

(** C3: in every history of [post], [wait], [try_wait] and [timed_wait]
    calls on a semaphore created with [init], and at every point of it
    (after any prefix [ops1]), the number of waits that completed is at most
    [init] plus the total posted so far, and the count is not negative. *)
Theorem completed_waits_never_exceed_posts init ops1 ops2 :
  is_size_t init = true ->
  forallb valid_op (ops1 ++ ops2) = true ->
  completed (run ops1 (start init)) <= init + posted (run ops1 (start init)) /\
  0 <= m_count (sem (run ops1 (start init))).
Proof.
  intros Hi Hv. rewrite forallb_app in Hv. apply andb_true_iff in Hv as [Hv _].
  destruct (run_balanced init ops1 (start init) Hv (start_balanced init Hi))
    as (Hc & Hw & Hb).
  lia.
Qed.

(** C9: [try_wait] always returns (it is a total function, it never
    blocks); with a positive count it returns [true] and the count is one
    less, otherwise it returns [false] and the semaphore is unchanged; and
    a [timed_wait] that returns [false] leaves the semaphore unchanged. *)
Theorem try_wait_decrements_or_refuses s :
  is_size_t (m_count s) = true ->
  (if 0 <? m_count s
   then try_wait s = (true, {| m_count := m_count s - 1 |})
   else try_wait s = (false, s)) /\
  (forall d s', timed_wait d s = (false, s') -> s' = s).
Proof.
  intros Hs. apply is_size_t_spec in Hs. split.
  - unfold try_wait. destruct (Z.ltb_spec 0 (m_count s)).
    + apply timed_wait_available. lia.
    + apply timed_wait_unavailable. lia.
  - intros d s'. apply timed_wait_false_inv. exact Hs.
Qed.

End SemaphoreClaims.

Lemma completed_waits_never_exceed_posts_witness :
  Semaphore.completed
    (Semaphore.run [Semaphore.Wait; Semaphore.Wait; Semaphore.Post 2;
                    Semaphore.TryWait; Semaphore.TimedWait 5; Semaphore.Wait]
       (Semaphore.start 1))
  <= 1 + Semaphore.posted
           (Semaphore.run [Semaphore.Wait; Semaphore.Wait; Semaphore.Post 2;
                           Semaphore.TryWait; Semaphore.TimedWait 5; Semaphore.Wait]
              (Semaphore.start 1)) /\
  0 <= Semaphore.m_count
         (Semaphore.sem
            (Semaphore.run [Semaphore.Wait; Semaphore.Wait; Semaphore.Post 2;
                            Semaphore.TryWait; Semaphore.TimedWait 5; Semaphore.Wait]
               (Semaphore.start 1))).
Proof.
  exact (completed_waits_never_exceed_posts 1
           [Semaphore.Wait; Semaphore.Wait; Semaphore.Post 2;
            Semaphore.TryWait; Semaphore.TimedWait 5; Semaphore.Wait]
           [Semaphore.TryWait] eq_refl eq_refl).
Defined.

Lemma try_wait_decrements_or_refuses_witness :
  Semaphore.try_wait (Semaphore.Semaphore 3) = (true, Semaphore.Semaphore 2) /\
  (forall d s', Semaphore.timed_wait d (Semaphore.Semaphore 3) = (false, s') ->
                s' = Semaphore.Semaphore 3).
Proof.
  exact (try_wait_decrements_or_refuses (Semaphore.Semaphore 3) eq_refl).
Defined.

(** A history on a semaphore created with count one: the second [wait] stays
    blocked, three waits complete against one initial unit and two posted. *)
Example history_example :
  let h := Semaphore.run [Semaphore.Wait; Semaphore.Wait; Semaphore.Post 2;
                          Semaphore.TryWait; Semaphore.TimedWait 5; Semaphore.TryWait]
             (Semaphore.start 1) in
  (Semaphore.completed h, Semaphore.posted h, Semaphore.m_count (Semaphore.sem h))
  = (3, 2, 0).
Proof. reflexivity. Qed.

(** ** The thread pool: what the specification states *)

Section PoolClaims.
Context {Callable : Type} (comp : Callable -> Callable -> bool) (THREAD_MAX : Z).

Local Abbreviation pool := (ThreadPool Callable).


(** C1: [Push] on a [FINISHED] pool returns [false] and changes nothing;
    otherwise it puts the item on the queue and posts one unit on
    [m_actions], but it ends without a [return] statement: in no state does
    it return [true]. *)
Theorem Push_never_returns_true call_ (s : pool) :
  (forall s', Push comp call_ s <> Returned true s') /\
  match m_status s with
  | FINISHED => Push comp call_ s = Returned false s
  | _ =>
      exists s', Push comp call_ s = NoReturn s' /\
        m_calls s' = pq_push comp call_ (m_calls s) /\
        m_calls s' ≡ₚ call_ :: m_calls s /\
        m_actions s' = Semaphore.post 1 (m_actions s) /\
        m_status s' = m_status s /\ m_threads s' = m_threads s
  end.
Proof.
  unfold Push. destruct (m_status s) eqn:E; simpl;
    (split; [intros s'; discriminate|]); try reflexivity.
  - eexists. split; [reflexivity|]. simpl.
    repeat split; auto using pq_push_Permutation.
  - eexists. split; [reflexivity|]. simpl.
    repeat split; auto using pq_push_Permutation.
Qed.

(** C2: [Finish(true)] never completes.  In every state the pool reaches
    from its constructor by calls of the public interface the semaphore
    [m_is_empty] has count zero, so the call blocks in [m_is_empty.wait()]
    (or returns [false] when the pool is already [FINISHED]); and no call of
    [Finish] changes the number of workers, [RemoveThreads] being empty. *)
Theorem Finish_drain_never_completes n cs :
  (forall s', Finish true (run_calls comp THREAD_MAX cs (ThreadPool_ctor Callable n))
              <> Returned true s') /\
  (forall b (s : pool), GetSize (state_after s (Finish b s)) = GetSize s).
Proof.
  split; [|intros b s; apply GetSize_Finish].
  intros s'. rewrite Finish_true_blocked
    by (apply never_signalled_run, never_signalled_ctor).
  destruct (Status_eqb _ _); discriminate.
Qed.

(** C4: [Pause] returns [true] without any change when the pool is
    [PAUSED] and [false] when it is [FINISHED]; on a [RUNNING] pool it
    neither sets the status to [PAUSED] nor returns a value. *)
Theorem Pause_never_sets_PAUSED (s : pool) :
  m_status (state_after s (Pause s)) = m_status s /\
  match m_status s with
  | PAUSED => Pause s = Returned true s
  | FINISHED => Pause s = Returned false s
  | RUNNING => forall b s', Pause s <> Returned b s'
  end.
Proof.
  unfold Pause. destruct (m_status s) eqn:E; simpl; auto.
  destruct (wait_times _ _) as [[|] sem]; simpl; (split; [exact E|]);
    intros b s'; discriminate.
Qed.

(** C5: in a [FINISHED] pool [Push], [Pause], [Continue] and
    [SetNumOfThreads] return [false] and leave the pool as it is, and so
    does every sequence of calls of the public interface: the status stays
    [FINISHED]. *)
Theorem FINISHED_is_terminal (s : pool) :
  m_status s = FINISHED ->
  (forall call_, Push comp call_ s = Returned false s) /\
  Pause s = Returned false s /\
  Continue s = Returned false s /\
  (forall nthread_, SetNumOfThreads THREAD_MAX nthread_ s = Returned false s) /\
  (forall cs, run_calls comp THREAD_MAX cs s = s).
Proof.
  intros Hs. repeat split.
  - intros x. apply (FINISHED_exec comp THREAD_MAX (CPush x) s Hs).
  - apply (FINISHED_exec comp THREAD_MAX CPause s Hs).
  - apply (FINISHED_exec comp THREAD_MAX CContinue s Hs).
  - intros n. apply (FINISHED_exec comp THREAD_MAX (CSetNumOfThreads n) s Hs).
  - intros cs. apply FINISHED_run. exact Hs.
Qed.

(** C7: the constructor creates [m_running_threads] with [threads_num_]
    permits and [AddThreads] posts [threads_num_] more: a fresh pool of [n]
    workers is [RUNNING] with [2 * n] running permits. *)
Theorem ctor_doubles_running_permits n :
  0 <= n -> 2 * n < SIZE_MOD ->
  m_status (ThreadPool_ctor Callable n) = RUNNING /\
  GetSize (ThreadPool_ctor Callable n) = n /\
  Semaphore.m_count (m_running_threads (ThreadPool_ctor Callable n)) = 2 * n.
Proof.
  intros Hn Hb. split; [reflexivity|]. split; [apply GetSize_ctor; exact Hn|].
  unfold ThreadPool_ctor. rewrite permits_AddThreads. simpl.
  rewrite Z.mod_small by lia. lia.
Qed.

(** C8: on a pool that is not [FINISHED], [SetNumOfThreads] with more than
    [THREAD_MAX] threads throws [length_error] and leaves the pool as it
    is. *)
Theorem SetNumOfThreads_over_ceiling_throws nthread_ (s : pool) :
  m_status s <> FINISHED -> THREAD_MAX < nthread_ ->
  SetNumOfThreads THREAD_MAX nthread_ s
  = Thrown (length_error "Number of threads excide the allowed value.") s.
Proof.
  intros Hs Hn. unfold SetNumOfThreads.
  destruct (m_status s); simpl; try congruence;
    destruct (Z.ltb_spec THREAD_MAX nthread_); try lia; reflexivity.
Qed.

End PoolClaims.

(** ** The work queue *)

Section QueueClaims.
Context {Callable : Type} (comp : Callable -> Callable -> bool) (THREAD_MAX : Z).

Local Abbreviation pool := (ThreadPool Callable).

Lemma m_calls_exec c (s : pool) :
  m_calls (state_after s (exec comp THREAD_MAX c s)) = m_calls s \/
  exists x, m_calls (state_after s (exec comp THREAD_MAX c s))
            = pq_push comp x (m_calls s).
Proof.
  destruct c as [| |b|n|x]; simpl.
  - left. unfold Pause. destruct (m_status s); try reflexivity.
    destruct (wait_times _ _) as [[|] sem]; reflexivity.
  - left. unfold Continue. destruct (m_status s); reflexivity.
  - left. unfold Finish, Continue.
    destruct (m_status s); simpl; try reflexivity;
      destruct b; simpl; try reflexivity;
      destruct (Semaphore.wait _); reflexivity.
  - left. unfold SetNumOfThreads.
    destruct (Status_eqb _ _); [reflexivity|].
    destruct (THREAD_MAX <? n); [reflexivity|].
    destruct (GetSize s <=? n); reflexivity.
  - unfold Push. destruct (Status_eqb _ _); [left; reflexivity|].
    right. exists x. reflexivity.
Qed.

Lemma Pop_NoReturn (s s' : pool) :
  Pop comp s = NoReturn s' ->
  exists ret c, pq_top (m_calls s) = Some ret /\
                pq_pop comp (m_calls s) = Some c /\ s' = set_calls c s.
Proof.
  unfold Pop. destruct (pq_top (m_calls s)) as [ret|]; [|discriminate].
  destruct (pq_pop comp (m_calls s)) as [c|]; [|discriminate].
  intros [= <-]. eauto.
Qed.

Lemma pq_pop_Permutation (c c' : list Callable) ret :
  pq_top c = Some ret -> pq_pop comp c = Some c' -> c ≡ₚ ret :: c'.
Proof.
  intros Htop Hpop. destruct (pop_heap_split comp c ret Htop) as [_ Hperm].
  unfold pq_pop in Hpop. destruct c; [discriminate|].
  injection Hpop as <-. exact Hperm.
Qed.

Lemma reachable_heap `{!StrictWeakOrder comp} (s : pool) :
  reachable comp THREAD_MAX s -> is_heap comp (m_calls s).
Proof.
  induction 1 as [n|s c _ IH|s s' _ IH Hpop].
  - apply is_heap_nil.
  - destruct (m_calls_exec c s) as [->|[x ->]]; [exact IH|].
    apply pq_push_heap; [exact _|exact IH].
  - apply Pop_NoReturn in Hpop as (ret & c & _ & Hc & ->). simpl.
    eapply pq_pop_heap; [exact _|exact IH|exact Hc].
Qed.

Lemma reachable_run_calls cs (s : pool) :
  reachable comp THREAD_MAX s ->
  reachable comp THREAD_MAX (run_calls comp THREAD_MAX cs s).
Proof.
  revert s. induction cs as [|c cs IH]; intros s Hs; simpl; [exact Hs|].
  apply IH. apply reach_call. exact Hs.
Qed.

(** C6, as the code has it: whenever [Callable]'s [operator<] is a strict
    weak ordering, the item [Pop] takes off the queue of a reachable pool is
    a greatest one (no queued item compares greater than it), and the
    queue keeps exactly the other items.  Which of several greatest items
    is taken is left to the heap. *)
Theorem Pop_takes_a_greatest_item `{!StrictWeakOrder comp} (s : pool) ret :
  reachable comp THREAD_MAX s -> Pop_ret s = Some ret ->
  (forall x, x ∈ m_calls s -> comp ret x = false) /\
  exists s', Pop comp s = NoReturn s' /\ m_calls s ≡ₚ ret :: m_calls s'.
Proof.
  intros Hs Hret. unfold Pop_ret in Hret. split.
  - apply heap_top_max; [exact _|apply reachable_heap; exact Hs|].
    unfold pq_top in Hret. rewrite head_lookup in Hret. exact Hret.
  - unfold Pop. rewrite Hret.
    destruct (pq_pop comp (m_calls s)) as [c|] eqn:Hpop.
    + eexists. split; [reflexivity|]. simpl.
      eapply pq_pop_Permutation; eassumption.
    + unfold pq_pop in Hpop. destruct (m_calls s); discriminate.
Qed.



End QueueClaims.

(** ** Concrete runs *)

#[export] Instance job_lt_strict_weak : StrictWeakOrder job_lt.
Proof.
  split; unfold job_lt.
  - intros a. apply Z.ltb_irrefl.
  - intros a b c. rewrite !Z.ltb_lt. lia.
  - intros a b c. rewrite !Z.ltb_ge. lia.
Qed.

(** Four items of priority 1 pushed with tags 0, 1, 2, 3 leave the queue in
    the order 0, 2, 1, 3. *)
Example four_equal_drained :
  pushed_then_drained [Job 1 0; Job 1 1; Job 1 2; Job 1 3]
  = [Job 1 0; Job 1 2; Job 1 1; Job 1 3].
Proof. vm_compute. reflexivity. Qed.

(** C6 fails as stated: the items tagged 1 and 2 have the same priority, the
    one tagged 1 is pushed first and the one tagged 2 is taken off first. *)
Lemma equal_priority_items_overtake :
  ~ equals_leave_in_push_order [Job 1 0; Job 1 1; Job 1 2; Job 1 3].
Proof.
  intros Hfifo.
  pose proof (Hfifo 1%nat 2%nat (Job 1 1) (Job 1 2) ltac:(lia) eq_refl eq_refl eq_refl
                2%nat 1%nat) as H.
  rewrite four_equal_drained in H. specialize (H eq_refl eq_refl). lia.
Qed.

Lemma Pop_takes_a_greatest_item_witness :
  (forall x, x ∈ m_calls mixed -> job_lt (Job 5 1) x = false) /\
  exists s', Pop job_lt mixed = NoReturn s' /\ m_calls mixed ≡ₚ Job 5 1 :: m_calls s'.
Proof.
  apply (Pop_takes_a_greatest_item job_lt 8 mixed (Job 5 1)).
  - apply reachable_run_calls. apply reach_ctor.
  - reflexivity.
Defined.

Lemma FINISHED_is_terminal_witness :
  (forall call_, Push job_lt call_ finished_pool = Returned false finished_pool) /\
  Pause finished_pool = Returned false finished_pool /\
  Continue finished_pool = Returned false finished_pool /\
  (forall nthread_, SetNumOfThreads 8 nthread_ finished_pool = Returned false finished_pool) /\
  (forall cs, run_calls job_lt 8 cs finished_pool = finished_pool).
Proof.
  apply (FINISHED_is_terminal job_lt 8 finished_pool). reflexivity.
Defined.

Lemma ctor_doubles_running_permits_witness :
  m_status one_worker = RUNNING /\
  GetSize one_worker = 1 /\
  Semaphore.m_count (m_running_threads one_worker) = 2 * 1.
Proof.
  apply (ctor_doubles_running_permits (Callable := job) 1); [lia|reflexivity].
Defined.

Lemma SetNumOfThreads_over_ceiling_throws_witness :
  SetNumOfThreads 8 9 one_worker
  = Thrown (length_error "Number of threads excide the allowed value.") one_worker.
Proof.
  apply (SetNumOfThreads_over_ceiling_throws 8 9 one_worker);
    [simpl; discriminate|reflexivity].
Defined.

(** [Push] on a fresh pool: the item is queued, one unit is posted, no value
    is returned. *)
Example Push_on_a_running_pool :
  match Push job_lt (Job 1 0) one_worker with
  | NoReturn s' =>
      m_calls s' = [Job 1 0] /\ Semaphore.m_count (m_actions s') = 1 /\
      m_status s' = RUNNING
  | _ => False
  end.
Proof. vm_compute. auto. Qed.

(** [Finish(true)] with two items queued blocks; [Finish(false)] returns
    [true] and the pool still has its worker; a later [Push] is refused. *)
Example Finish_on_a_running_pool :
  (match Finish true (run_calls job_lt 8 [CPush (Job 1 0); CPush (Job 2 1)] one_worker) with
   | Blocked s' => length (m_calls s') = 2%nat /\ m_status s' = RUNNING
   | _ => False
   end) /\
  (match Finish false one_worker with
   | Returned b s' =>
       b = true /\ GetSize s' = 1 /\ m_status s' = FINISHED /\
       Push job_lt (Job 1 0) s' = Returned false s'
   | _ => False
   end).
Proof. split; vm_compute; auto. Qed.

(** [Pause] on a fresh pool of one worker: no value is returned, the status
    is still [RUNNING], one of the two running permits is left, and one unit
    was posted on [m_actions] although the queue is empty. *)
Example Pause_on_a_running_pool :
  match Pause one_worker with
  | NoReturn s' =>
      m_status s' = RUNNING /\
      Semaphore.m_count (m_running_threads s') = 1 /\
      Semaphore.m_count (m_actions s') = 1 /\
      m_calls s' = [] /\ Pop job_lt s' = Undefined
  | _ => False
  end.
Proof. vm_compute. auto. Qed.

(** Growing a pool keeps the surplus of permits: three workers, four permits. *)
Example SetNumOfThreads_grows :
  match SetNumOfThreads 8 3 one_worker with
  | Returned b s' =>
      b = true /\ GetSize s' = 3 /\ Semaphore.m_count (m_running_threads s') = 4
  | _ => False
  end.
Proof. vm_compute. auto. Qed.

(** * Further properties of the code *)

(** ** Semaphore: posting, waiting and the wrap-around *)

Section SemaphoreMore.
Import Semaphore.

Lemma wait_times_count n c :
  0 <= c < SIZE_MOD ->
  wait_times n {| m_count := c |}
  = if Z.of_nat n <=? c
    then (true, {| m_count := c - Z.of_nat n |})
    else (false, {| m_count := 0 |}).
Proof.
  revert c. induction n as [|n IH]; intros c Hc.
  - cbn [wait_times]. change (Z.of_nat 0) with 0.
    destruct (Z.leb_spec 0 c); [|lia]. rewrite Z.sub_0_r. reflexivity.
  - cbn [wait_times]. unfold wait, IsAvailable. cbn [m_count].
    destruct (Z.ltb_spec 0 c) as [Hpos|Hz].
    + rewrite Z.mod_small by lia. rewrite IH by lia.
      destruct (Z.leb_spec (Z.of_nat n) (c - 1));
        destruct (Z.leb_spec (Z.of_nat (S n)) c); try lia; [|reflexivity].
      do 2 f_equal. lia.
    + destruct (Z.leb_spec (Z.of_nat (S n)) c); [lia|].
      do 2 f_equal. lia.
Qed.

(** X1: on a semaphore with count [c], a run of [n] calls of [wait] goes
    through exactly when [n <= c], leaving [c - n]; otherwise the caller
    blocks after the count has dropped to zero. *)
Theorem waits_complete_iff_enough_permits n s :
  is_size_t (m_count s) = true ->
  wait_times n s
  = if Z.of_nat n <=? m_count s
    then (true, {| m_count := m_count s - Z.of_nat n |})
    else (false, {| m_count := 0 |}).
Proof.
  intros Hs. apply is_size_t_spec in Hs. destruct s as [c]. cbn [m_count] in *.
  apply wait_times_count. exact Hs.
Qed.

(** X2: posting [n] and then waiting [n] times gives the semaphore back, as
    long as the post does not pass [SIZE_MAX]. *)
Theorem post_then_waits_restore n s :
  is_size_t (m_count s) = true ->
  m_count s + Z.of_nat n < SIZE_MOD ->
  wait_times n (post (Z.of_nat n) s) = (true, s).
Proof.
  intros Hs Hb. apply is_size_t_spec in Hs. destruct s as [c]. cbn [m_count] in *.
  unfold post. cbn [m_count]. rewrite Z.mod_small by lia.
  rewrite wait_times_count by lia.
  destruct (Z.leb_spec (Z.of_nat n) (c + Z.of_nat n)); [|lia].
  do 2 f_equal. lia.
Qed.

(** X3: [post] does not check for overflow: when the count and the posted
    amount together reach [2^64] the counter wraps, and the semaphore ends up
    with fewer permits than it had. *)
Theorem post_wraps_around n s :
  is_size_t (m_count s) = true -> is_size_t n = true ->
  SIZE_MOD <= m_count s + n ->
  m_count (post n s) = m_count s + n - SIZE_MOD /\
  m_count (post n s) < m_count s.
Proof.
  intros Hs Hn Hb. apply is_size_t_spec in Hs. apply is_size_t_spec in Hn.
  unfold post. cbn [m_count].
  assert (E : (m_count s + n) mod SIZE_MOD = m_count s + n - SIZE_MOD).
  { symmetry. apply (Z.mod_unique _ _ 1); lia. }
  rewrite E. lia.
Qed.

End SemaphoreMore.

Lemma waits_complete_iff_enough_permits_witness :
  wait_times 3 (Semaphore.Semaphore 2) = (false, Semaphore.Semaphore 0).
Proof.
  exact (waits_complete_iff_enough_permits 3 (Semaphore.Semaphore 2) eq_refl).
Defined.

Lemma post_then_waits_restore_witness :
  wait_times 4 (Semaphore.post 4 (Semaphore.Semaphore 1)) = (true, Semaphore.Semaphore 1).
Proof.
  exact (post_then_waits_restore 4 (Semaphore.Semaphore 1) eq_refl eq_refl).
Defined.

Lemma post_wraps_around_witness :
  Semaphore.m_count (Semaphore.post 2 (Semaphore.Semaphore (SIZE_MOD - 1)))
  = SIZE_MOD - 1 + 2 - SIZE_MOD /\
  Semaphore.m_count (Semaphore.post 2 (Semaphore.Semaphore (SIZE_MOD - 1)))
  < SIZE_MOD - 1.
Proof.
  apply (post_wraps_around 2 (Semaphore.Semaphore (SIZE_MOD - 1)));
    [reflexivity|reflexivity|vm_compute; discriminate].
Defined.

(** ** The thread pool: workers, permits and shutdown *)

Section PoolMore.
Context {Callable : Type} (comp : Callable -> Callable -> bool) (THREAD_MAX : Z).

Local Abbreviation pool := (ThreadPool Callable).

Lemma spawn_subseteq (m : gmap nat thread) : m ⊆ spawn m.
Proof.
  unfold spawn, umap_insert. cbn [get_id].
  assert (Hfresh : m !! fresh (dom m) = None).
  { apply not_elem_of_dom. apply is_fresh. }
  rewrite Hfresh. apply insert_subseteq. exact Hfresh.
Qed.

Lemma iter_spawn_subseteq n (m : gmap nat thread) : m ⊆ Nat.iter n spawn m.
Proof.
  induction n as [|n IH]; simpl; [reflexivity|].
  etransitivity; [exact IH|apply spawn_subseteq].
Qed.

Lemma threads_exec c (s : pool) :
  m_threads s ⊆ m_threads (state_after s (exec comp THREAD_MAX c s)).
Proof.
  destruct c as [| |b|n|x]; simpl.
  - unfold Pause. destruct (m_status s); try reflexivity.
    destruct (wait_times _ _) as [[|] sem]; reflexivity.
  - unfold Continue. destruct (m_status s); reflexivity.
  - unfold Finish, Continue.
    destruct (m_status s); simpl; try reflexivity;
      destruct b; simpl; try reflexivity;
      destruct (Semaphore.wait _); reflexivity.
  - unfold SetNumOfThreads.
    destruct (Status_eqb _ _); [reflexivity|].
    destruct (THREAD_MAX <? n); [reflexivity|].
    destruct (GetSize s <=? n); [|reflexivity].
    simpl. apply iter_spawn_subseteq.
  - unfold Push. destruct (Status_eqb _ _); reflexivity.
Qed.

(** X4: no call of the public interface ever takes a worker out of the pool:
    after any sequence of calls every thread that was in [m_threads] is still
    there, and [GetSize()] has not gone down. *)
Theorem workers_are_never_removed cs (s : pool) :
  m_threads s ⊆ m_threads (run_calls comp THREAD_MAX cs s) /\
  GetSize s <= GetSize (run_calls comp THREAD_MAX cs s).
Proof.
  assert (Hsub : m_threads s ⊆ m_threads (run_calls comp THREAD_MAX cs s)).
  { revert s. induction cs as [|c cs IH]; intros s; simpl; [reflexivity|].
    etransitivity; [apply (threads_exec c s)|apply IH]. }
  split; [exact Hsub|].
  unfold GetSize. apply map_subseteq_size in Hsub. lia.
Qed.

(** X5: on a pool that is not [FINISHED], [SetNumOfThreads(n)] with [n] within
    the ceiling returns [true]; afterwards [GetSize()] is the larger of the old
    size and [n]: the pool grows to [n] (keeping its threads, and posting one
    running permit per new one) but never shrinks, whatever else it holds
    staying as it was. *)
Theorem SetNumOfThreads_reaches_the_larger nthread_ (s : pool) :
  m_status s <> FINISHED -> 0 <= nthread_ -> nthread_ <= THREAD_MAX ->
  nthread_ < SIZE_MOD ->
  exists s',
    SetNumOfThreads THREAD_MAX nthread_ s = Returned true s' /\
    GetSize s' = Z.max (GetSize s) nthread_ /\
    m_threads s ⊆ m_threads s' /\
    m_running_threads s'
    = (if GetSize s <=? nthread_
       then Semaphore.post (nthread_ - GetSize s) (m_running_threads s)
       else m_running_threads s) /\
    m_status s' = m_status s /\ m_calls s' = m_calls s /\
    m_actions s' = m_actions s.
Proof.
  intros Hs Hn Hmax Hmod. unfold SetNumOfThreads.
  assert (E : Status_eqb FINISHED (m_status s) = false)
    by (destruct (m_status s); [reflexivity|reflexivity|congruence]).
  rewrite E. destruct (Z.ltb_spec THREAD_MAX nthread_); [lia|].
  pose proof (GetSize_nonneg s) as Hsz.
  destruct (Z.leb_spec (GetSize s) nthread_) as [Hle|Hgt].
  - rewrite Z.mod_small by lia. eexists. split; [reflexivity|].
    split; [rewrite GetSize_AddThreads by lia; lia|].
    split; [apply iter_spawn_subseteq|]. repeat split; reflexivity.
  - exists s. split; [reflexivity|]. split; [lia|].
    repeat split; reflexivity.
Qed.




(** X7: [Pause] on a [RUNNING] pool takes one running permit per worker.
    With at least [GetSize()] permits available it goes through, leaving the
    rest and posting [GetSize()] units on [m_actions]; with fewer it blocks,
    having taken all there were. *)
Theorem Pause_takes_a_permit_per_worker (s : pool) :
  m_status s = RUNNING ->
  is_size_t (Semaphore.m_count (m_running_threads s)) = true ->
  Pause s
  = if GetSize s <=? Semaphore.m_count (m_running_threads s)
    then NoReturn
           (set_actions (Semaphore.post (GetSize s) (m_actions s))
              (set_running_threads
                 (Semaphore.Semaphore
                    (Semaphore.m_count (m_running_threads s) - GetSize s)) s))
    else Blocked (set_running_threads (Semaphore.Semaphore 0) s).
Proof.
  intros Hs Hc. apply is_size_t_spec in Hc. unfold Pause. rewrite Hs.
  destruct (m_running_threads s) as [c] eqn:Er. cbn [Semaphore.m_count] in *.
  rewrite wait_times_count by exact Hc.
  rewrite Z2Nat.id by apply GetSize_nonneg.
  destruct (GetSize s <=? c); reflexivity.
Qed.

Lemma members_exec c (s : pool) :
  (m_status s = RUNNING \/ m_status s = FINISHED) /\
  m_is_empty s = Semaphore.Semaphore 0 ->
  ((m_status (state_after s (exec comp THREAD_MAX c s)) = RUNNING \/
    m_status (state_after s (exec comp THREAD_MAX c s)) = FINISHED) /\
   m_is_empty (state_after s (exec comp THREAD_MAX c s)) = Semaphore.Semaphore 0) /\
  m_to_stop (state_after s (exec comp THREAD_MAX c s)) = m_to_stop s /\
  m_to_remove (state_after s (exec comp THREAD_MAX c s)) = m_to_remove s.
Proof.
  intros [Hst He].
  assert (Hns : never_signalled s).
  { split; [exact He|]. destruct Hst as [-> | ->]; discriminate. }
  pose proof (never_signalled_exec comp THREAD_MAX c s Hns) as [He' Hst'].
  split; [split; [|exact He']|].
  - destruct (m_status (state_after s (exec comp THREAD_MAX c s)));
      [left; reflexivity|congruence|right; reflexivity].
  - destruct c as [| |b|n|x]; simpl.
    + unfold Pause. destruct (m_status s); auto.
      destruct (wait_times _ _) as [[|] sem]; auto.
    + unfold Continue. destruct (m_status s); auto.
    + unfold Finish, Continue.
      destruct (m_status s); simpl; auto;
        destruct b; simpl; auto; destruct (Semaphore.wait _); auto.
    + unfold SetNumOfThreads.
      destruct (Status_eqb _ _); auto.
      destruct (THREAD_MAX <? n); auto.
      destruct (GetSize s <=? n); auto.
    + unfold Push. destruct (Status_eqb _ _); auto.
Qed.

(** X8: in every state the pool can reach, the status is [RUNNING] or
    [FINISHED] (nothing assigns [PAUSED]), [m_is_empty] and [m_to_stop] still
    have count zero and [m_to_remove] is still empty (nothing posts on them or
    pushes to it); hence [Continue] changes nothing there. *)
Theorem unused_members_stay_as_constructed (s : pool) :
  reachable comp THREAD_MAX s ->
  (m_status s = RUNNING \/ m_status s = FINISHED) /\
  m_is_empty s = Semaphore.Semaphore 0 /\
  m_to_stop s = Semaphore.Semaphore 0 /\
  m_to_remove s = [] /\
  Continue s = Returned (Status_eqb RUNNING (m_status s)) s.
Proof.
  intros Hs.
  assert (H : ((m_status s = RUNNING \/ m_status s = FINISHED) /\
               m_is_empty s = Semaphore.Semaphore 0) /\
              m_to_stop s = Semaphore.Semaphore 0 /\ m_to_remove s = []).
  { induction Hs as [n|s c _ IH|s s' _ IH Hpop].
    - repeat split. left. reflexivity.
    - destruct IH as (H1 & H2 & H3).
      destruct (members_exec c s H1) as (H1' & H2' & H3').
      split; [exact H1'|]. split; congruence.
    - apply Pop_NoReturn in Hpop as (ret & c & _ & _ & ->). exact IH. }
  destruct H as ((Hst & He) & Hstop & Hrem).
  repeat split; try assumption.
  unfold Continue. destruct Hst as [-> | ->]; reflexivity.
Qed.

End PoolMore.

Lemma SetNumOfThreads_reaches_the_larger_witness :
  exists s',
    SetNumOfThreads 8 3 one_worker = Returned true s' /\
    GetSize s' = Z.max (GetSize one_worker) 3 /\
    m_threads one_worker ⊆ m_threads s' /\
    m_running_threads s'
    = (if GetSize one_worker <=? 3
       then Semaphore.post (3 - GetSize one_worker) (m_running_threads one_worker)
       else m_running_threads one_worker) /\
    m_status s' = m_status one_worker /\ m_calls s' = m_calls one_worker /\
    m_actions s' = m_actions one_worker.
Proof.
  apply (SetNumOfThreads_reaches_the_larger 8 3 one_worker);
    [simpl; discriminate|lia|lia|reflexivity].
Defined.

Lemma Pause_takes_a_permit_per_worker_witness :
  Pause one_worker
  = if GetSize one_worker <=? Semaphore.m_count (m_running_threads one_worker)
    then NoReturn
           (set_actions (Semaphore.post (GetSize one_worker) (m_actions one_worker))
              (set_running_threads
                 (Semaphore.Semaphore
                    (Semaphore.m_count (m_running_threads one_worker)
                     - GetSize one_worker)) one_worker))
    else Blocked (set_running_threads (Semaphore.Semaphore 0) one_worker).
Proof.
  apply (Pause_takes_a_permit_per_worker one_worker); reflexivity.
Defined.

Lemma unused_members_stay_as_constructed_witness :
  (m_status mixed = RUNNING \/ m_status mixed = FINISHED) /\
  m_is_empty mixed = Semaphore.Semaphore 0 /\
  m_to_stop mixed = Semaphore.Semaphore 0 /\
  m_to_remove mixed = [] /\
  Continue mixed = Returned (Status_eqb RUNNING (m_status mixed)) mixed.
Proof.
  apply (unused_members_stay_as_constructed job_lt 8 mixed).
  apply reachable_run_calls. apply reach_ctor.
Defined.

(** ** The work queue: order of removal *)

Section HeapTop.
Local Open Scope nat_scope.
Context {Callable : Type} (comp : Callable -> Callable -> bool).
Context `{!StrictWeakOrder comp}.

Lemma prefix_root_ge h v t :
  heap_upto comp h v -> v !! 0 = Some t ->
  forall i x, i < h -> v !! i = Some x -> comp t x = false.
Proof.
  intros Hv Ht i. induction (lt_wf i) as [i _ IH]. intros x Hi Hx.
  destruct (decide (i = 0)) as [->|Hne].
  - rewrite Ht in Hx. injection Hx as <-. apply comp_irrefl.
  - pose proof (lookup_lt_Some _ _ _ Hx) as Hl.
    destruct (lookup_lt_is_Some_2 v ((i - 1) / 2) ltac:(clear - Hl; div2)) as [p Hp].
    apply comp_false_trans with p; [exact _| |].
    + apply (IH ((i - 1) / 2)); [clear - Hne; div2|clear - Hi Hne; div2|exact Hp].
    + apply (Hv i x p); [lia|exact Hx|exact Hp].
Qed.

Lemma sift_up_root fuel v h value t :
  h <= fuel -> h < length v -> heap_upto comp h v -> v !! 0 = Some t ->
  (h = 0 -> comp t value = true) ->
  sift_up comp fuel v h 0 value !! 0 = Some (if comp t value then value else t).
Proof.
  revert v h. induction fuel as [|fuel IH]; intros v h Hf Hh Hv Ht H0;
    cbn [sift_up].
  - assert (h = 0) by lia. subst h. rewrite (H0 eq_refl).
    apply list_lookup_insert_eq. exact Hh.
  - destruct (v !! ((h - 1) / 2)) as [p|] eqn:Ep.
    2:{ apply lookup_ge_None_1 in Ep. exfalso. clear - Ep Hh. div2. }
    destruct (decide (h = 0)) as [->|Hpos].
    + simpl. rewrite (H0 eq_refl). apply list_lookup_insert_eq. exact Hh.
    + assert (Hph : (h - 1) / 2 < h) by (clear - Hpos; div2).
      assert (Htp : comp t p = false)
        by (apply (prefix_root_ge h v t Hv Ht ((h - 1) / 2) p Hph Ep)).
      replace (0 <? h) with true by (symmetry; apply Nat.ltb_lt; lia).
      cbn [andb]. destruct (comp p value) eqn:Epv.
      * apply IH.
        -- lia.
        -- rewrite length_insert. lia.
        -- intros i x q Hi Hx Hq.
           rewrite list_lookup_insert_ne in Hx by lia.
           rewrite list_lookup_insert_ne in Hq by (clear - Hi Hph; div2).
           apply (Hv i x q); [lia|exact Hx|exact Hq].
        -- rewrite list_lookup_insert_ne by lia. exact Ht.
        -- intros Hz. rewrite Hz, Ht in Ep. injection Ep as <-. exact Epv.
      * rewrite list_lookup_insert_ne by lia. rewrite Ht.
        rewrite (comp_false_trans comp t p value Htp Epv). reflexivity.
Qed.

Lemma pq_push_top x c :
  is_heap comp c ->
  pq_top (pq_push comp x c)
  = Some (match pq_top c with
          | Some t => if comp t x then x else t
          | None => x
          end).
Proof.
  intros Hc. destruct (pq_top c) as [t|] eqn:Ht.
  2:{ unfold pq_top in Ht. destruct c; [reflexivity|discriminate]. }
  unfold pq_top in Ht. rewrite head_lookup in Ht.
  pose proof (lookup_lt_Some _ _ _ Ht) as Hl.
  unfold pq_top, pq_push, push_heap. rewrite head_lookup, last_snoc.
  rewrite length_app. simpl.
  apply sift_up_root.
  - lia.
  - rewrite length_app. simpl. lia.
  - replace (length c + 1 - 1) with (length c) by lia.
    intros i y p Hi Hy Hp.
    rewrite lookup_app_l in Hy by lia.
    rewrite lookup_app_l in Hp by (clear - Hi; div2).
    apply (Hc i y p); [lia|exact Hy|exact Hp].
  - rewrite lookup_app_l by lia. exact Ht.
  - lia.
Qed.

End HeapTop.

Section QueueMore.
Context {Callable : Type} (comp : Callable -> Callable -> bool) (THREAD_MAX : Z).
Context `{!StrictWeakOrder comp}.

Local Abbreviation pool := (ThreadPool Callable).

Lemma drain_heap fuel (s : pool) :
  is_heap comp (m_calls s) -> (length (m_calls s) <= fuel)%nat ->
  drain comp fuel s ≡ₚ m_calls s /\
  StronglySorted (fun a b => comp a b = false) (drain comp fuel s).
Proof.
  revert s. induction fuel as [|fuel IH]; intros s Hheap Hlen; cbn [drain].
  - destruct (m_calls s); [|simpl in Hlen; lia]. split; constructor.
  - unfold Pop_ret, Pop.
    destruct (pq_top (m_calls s)) as [ret|] eqn:Etop.
    2:{ unfold pq_top in Etop. destruct (m_calls s); [|discriminate].
        split; constructor. }
    destruct (pq_pop comp (m_calls s)) as [c|] eqn:Epop.
    2:{ unfold pq_pop in Epop. destruct (m_calls s); discriminate. }
    pose proof (pq_pop_Permutation comp (m_calls s) c ret Etop Epop) as Hperm.
    destruct (IH (set_calls c s)) as [Hp Hs].
    + simpl. eapply pq_pop_heap; [exact _|exact Hheap|exact Epop].
    + simpl. apply Permutation_length in Hperm. simpl in Hperm. lia.
    + simpl in Hp. split.
      * rewrite Hp. symmetry. exact Hperm.
      * constructor; [exact Hs|]. apply Forall_forall. intros x Hx.
        apply (heap_top_max comp (m_calls s) ret); [exact Hheap| |].
        -- unfold pq_top in Etop. rewrite head_lookup in Etop. exact Etop.
        -- rewrite Hperm. apply elem_of_cons. right. rewrite <- Hp. exact Hx.
Qed.

(** X9: calling [Pop] until the queue of a reachable pool is empty takes off
    every queued item exactly once, greatest first: no item is taken before
    one that compares greater. *)
Theorem drain_takes_all_in_priority_order fuel (s : pool) :
  reachable comp THREAD_MAX s -> (length (m_calls s) <= fuel)%nat ->
  drain comp fuel s ≡ₚ m_calls s /\
  StronglySorted (fun a b => comp a b = false) (drain comp fuel s).
Proof.
  intros Hs Hlen. apply drain_heap; [|exact Hlen].
  apply (reachable_heap comp THREAD_MAX s Hs).
Qed.

(** X10: on a reachable pool that is not [FINISHED], [Push] makes the new
    item the next one to be taken only when it compares greater than the
    current top; otherwise the current top stays on top.  On an empty queue
    the new item is the top. *)
Theorem Push_replaces_the_top_only_by_a_greater_item x (s : pool) :
  reachable comp THREAD_MAX s -> m_status s <> FINISHED ->
  Pop_ret (state_after s (Push comp x s))
  = Some (match Pop_ret s with
          | Some t => if comp t x then x else t
          | None => x
          end).
Proof.
  intros Hs Hst. unfold Push.
  assert (E : Status_eqb FINISHED (m_status s) = false)
    by (destruct (m_status s); [reflexivity|reflexivity|congruence]).
  rewrite E. unfold Pop_ret. simpl.
  apply pq_push_top; [exact _|]. apply (reachable_heap comp THREAD_MAX s Hs).
Qed.

End QueueMore.

Section QueueContents.
Context {Callable : Type} (comp : Callable -> Callable -> bool) (THREAD_MAX : Z).

Local Abbreviation pool := (ThreadPool Callable).

(** X11: pushing a list of items on a pool that is not [FINISHED] puts
    exactly these items on the queue, next to what it held: none is lost or
    doubled; one unit per item is posted on [m_actions]; the status does not
    change. *)
Theorem pushes_queue_every_item items (s : pool) :
  m_status s <> FINISHED ->
  is_size_t (Semaphore.m_count (m_actions s)) = true ->
  m_calls (run_calls comp THREAD_MAX (map CPush items) s) ≡ₚ items ++ m_calls s /\
  Semaphore.m_count (m_actions (run_calls comp THREAD_MAX (map CPush items) s))
  = (Semaphore.m_count (m_actions s) + Z.of_nat (length items)) mod SIZE_MOD /\
  m_status (run_calls comp THREAD_MAX (map CPush items) s) = m_status s.
Proof.
  revert s. induction items as [|x items IH]; intros s Hst Hc.
  - simpl. apply is_size_t_spec in Hc. rewrite Z.add_0_r, Z.mod_small by lia.
    auto.
  - change (run_calls comp THREAD_MAX (map CPush (x :: items)) s)
      with (run_calls comp THREAD_MAX (map CPush items)
              (state_after s (Push comp x s))).
    assert (E : Status_eqb FINISHED (m_status s) = false)
      by (destruct (m_status s); [reflexivity|reflexivity|congruence]).
    assert (Hs1 : m_status (state_after s (Push comp x s)) = m_status s)
      by (unfold Push; rewrite E; reflexivity).
    assert (Hc1 : m_calls (state_after s (Push comp x s))
                  = pq_push comp x (m_calls s))
      by (unfold Push; rewrite E; reflexivity).
    assert (Ha1 : m_actions (state_after s (Push comp x s))
                  = Semaphore.post 1 (m_actions s))
      by (unfold Push; rewrite E; reflexivity).
    destruct (IH (state_after s (Push comp x s))) as (Hp & Ha & Hs).
    + rewrite Hs1. exact Hst.
    + rewrite Ha1. apply is_size_t_spec. apply Z.mod_pos_bound. reflexivity.
    + split; [|split].
      * rewrite Hp, Hc1, pq_push_Permutation. symmetry. apply Permutation_middle.
      * rewrite Ha, Ha1. cbn [Semaphore.post Semaphore.m_count].
        rewrite Zplus_mod_idemp_l. f_equal. cbn [length]. lia.
      * rewrite Hs. exact Hs1.
Qed.

End QueueContents.

(** ** Singleton *)

Section SingletonFacts.
Context {C W : Type} (construct : W -> C * W).

Lemma calls_initialised n (m_data : C) (w : W) :
  Singleton.calls construct n (Some m_data, w)
  = (replicate n m_data, (Some m_data, w)).
Proof.
  induction n as [|n IH]; [reflexivity|].
  cbn [Singleton.calls]. unfold Singleton.GetInstance at 1. cbn [fst].
  rewrite IH. reflexivity.
Qed.

(** X12: however often [GetInstance] is called, [C]'s constructor runs once,
    in the first call, and every call returns the instance it made. *)
Theorem GetInstance_constructs_once n (w : W) :
  Singleton.calls construct (S n) (None, w)
  = (replicate (S n) (fst (construct w)),
     (Some (fst (construct w)), snd (construct w))).
Proof.
  cbn [Singleton.calls]. unfold Singleton.GetInstance at 1. cbn [fst snd].
  destruct (construct w) as [m_data w']. rewrite calls_initialised. reflexivity.
Qed.

End SingletonFacts.

Lemma drain_takes_all_in_priority_order_witness :
  drain job_lt 4 mixed ≡ₚ m_calls mixed /\
  StronglySorted (fun a b => job_lt a b = false) (drain job_lt 4 mixed).
Proof.
  apply (drain_takes_all_in_priority_order job_lt 8 4 mixed).
  - apply reachable_run_calls. apply reach_ctor.
  - vm_compute. lia.
Defined.

Lemma Push_replaces_the_top_only_by_a_greater_item_witness :
  Pop_ret (state_after mixed (Push job_lt (Job 5 9) mixed))
  = Some (match Pop_ret mixed with
          | Some t => if job_lt t (Job 5 9) then Job 5 9 else t
          | None => Job 5 9
          end).
Proof.
  apply (Push_replaces_the_top_only_by_a_greater_item job_lt 8 (Job 5 9) mixed).
  - apply reachable_run_calls. apply reach_ctor.
  - simpl. discriminate.
Defined.

Lemma pushes_queue_every_item_witness :
  m_calls (run_calls job_lt 8 (map CPush [Job 2 7; Job 9 8]) mixed)
  ≡ₚ [Job 2 7; Job 9 8] ++ m_calls mixed /\
  Semaphore.m_count (m_actions (run_calls job_lt 8 (map CPush [Job 2 7; Job 9 8]) mixed))
  = (Semaphore.m_count (m_actions mixed) + Z.of_nat (length [Job 2 7; Job 9 8]))
    mod SIZE_MOD /\
  m_status (run_calls job_lt 8 (map CPush [Job 2 7; Job 9 8]) mixed) = m_status mixed.
Proof.
  apply (pushes_queue_every_item job_lt 8 [Job 2 7; Job 9 8] mixed).
  - simpl. discriminate.
  - reflexivity.
Defined.

(** The items of [mixed] leave in the order 5, 5, 3, 1. *)
Example mixed_drained :
  drain job_lt 4 mixed = [Job 5 1; Job 5 3; Job 3 0; Job 1 2].
Proof. vm_compute. reflexivity. Qed.


(** Destroying the fresh pool of one worker ends in [std::terminate]; a pool
    constructed without workers is destroyed. *)
Example destructor_on_small_pools :
  ThreadPool_dtor one_worker = Terminated /\
  ThreadPool_dtor (ThreadPool_ctor job 0) = Destroyed.
Proof. split; vm_compute; reflexivity. Qed.
